(** * Reference counting, service lookup, RPC proxies and route handlers

    A shallow embedding of the lifecycle and dispatch code of the messaging
    layer:

    - [Rc]: [DefaultRc] of [reference-counter.ts] (the shared
      [DefaultRcState], the per-handle [disposed] flag, [clone], [dispose],
      [disposeRef] and the deferred dispose / revive protocol);
    - [ServiceProvider]: [DefaultServiceProvider.getService] and
      [ServiceLifecycleImpl] of [service-provider.ts];
    - [RpcProxy]: [RpcProxyHandler] of [rpc.ts];
    - [RouteHandler]: [DefaultRouteHandlerProvider] of [route-handler.ts];
    - [BackendProxying]: [FrontendServiceConnectionProvider].

    Mutable JavaScript objects are modelled by explicit state passing; what
    the code does to its collaborators (the wrapped resource, the
    connection, [console]) is recorded in a chronological trace. *)

From stdpp Require Import gmap strings list fin_maps.
From Stdlib Require Import ZArith Lia Ascii.

Local Open Scope Z_scope.

(** ** JavaScript values, as far as the code inspects them *)

#[warnings="-register-all"]
Inductive JsValue : Type :=
  | JsUndefined
  | JsNull
  | JsBoolean (b : bool)
  | JsNumber (n : Z)                          (* the integers among the numbers *)
  | JsString (s : string)
  | JsSymbol (id : nat)
  | JsObject (id : nat)                       (* an object known by identity *)
  | JsRecord (fields : gmap string JsValue).  (* an object literal *)

(** [if (v)]: ToBoolean. *)
Definition truthy (v : JsValue) : bool :=
  match v with
  | JsUndefined | JsNull => false
  | JsBoolean b => b
  | JsNumber n => negb (n =? 0)
  | JsString s => negb (String.eqb s EmptyString)
  | JsSymbol _ | JsObject _ | JsRecord _ => true
  end.

(** [v !== undefined]. *)
Definition defined (v : JsValue) : bool :=
  match v with JsUndefined => false | _ => true end.

(** What a [throw] carries: [new Error(message)], or the [TypeError] the
    runtime raises on a property access on [undefined]. *)
Inductive Thrown : Type :=
  | Error (message : string)
  | TypeError (message : string).

(** Number of elements of a trace satisfying a boolean test. *)
Definition tally {A : Type} (p : A → bool) (l : list A) : nat :=
  length (filter (λ x, p x = true) l).

(** Flags that are set, among the [disposed] flags of the handles. *)
Definition setFlags (l : list bool) : nat := tally (λ b, b) l.

(** ** reference-counter.ts *)

Module Rc.

(** [Rc.Errors]. *)
Inductive Errors : Type := RC_DISPOSED | REF_DISPOSED.

Definition message (e : Errors) : string :=
  match e with
  | RC_DISPOSED => "this reference is disposed"
  | REF_DISPOSED => "the underlying reference is disposed"
  end.

(** A [RcDisposeCallback] is user code: [(dispose) => revive | void].
    What it can do with the [dispose] function it is handed is to call it
    before returning, to keep it for a later call (a timer, a debounce),
    and to return a revive function or nothing. Callbacks that call it
    more than once before returning, or that throw, are not covered. *)
Record CallbackRun : Type := {
  callsDisposeNow : bool;
  keepsDispose : bool;
  returnsRevive : bool
}.

(** The callback may answer differently each time; it is indexed by the
    number of times it ran before. *)
Definition RcDisposeCallback : Type := nat → CallbackRun.

(** The revive function returned by the [n]-th run of the callback. *)
Inductive RcReviveCallback : Type := ReviveFn (n : nat).

Section WithResource.

(** [T extends Disposable]: the wrapped resource. *)
Context {T : Type}.

(** [DefaultRcState<T>], shared by every handle cloned from one [New]. *)
Record DefaultRcState : Type := {
  disposeCallback : option RcDisposeCallback;
  reviveCallback : option RcReviveCallback;
  count : Z;
  ref : option T
}.

(** What the code does to the outside, in order. *)
Inductive Effect : Type :=
  | Constructed (h : nat)          (* [new DefaultRc(state)] returned handle [h] *)
  | Decremented (h : nat)          (* [dispose()] on [h] went past its guard *)
  | ConsoleTrace (e : Errors)      (* [console.trace(...)] *)
  | CallbackCalled (n : nat)       (* [state.disposeCallback(...)] *)
  | ReviveCalled (f : RcReviveCallback)
  | WillDisposeFired (r : option T) (* [emitter.fire(state.ref!)] *)
  | EmitterDisposed
  | TargetDisposed (r : T).        (* [state.ref!.dispose()] *)

Definition isTargetDisposed (e : Effect) : bool :=
  match e with TargetDisposed _ => true | _ => false end.
Definition isConstructed (e : Effect) : bool :=
  match e with Constructed _ => true | _ => false end.
Definition isDecremented (e : Effect) : bool :=
  match e with Decremented _ => true | _ => false end.
Definition isReviveCalled (e : Effect) : bool :=
  match e with ReviveCalled _ => true | _ => false end.

(** The heap: the shared state record, the private [disposed] flag of
    every [DefaultRc] instance created over it (in creation order), how
    often the dispose callback ran, how many [dispose] functions it
    still holds, and the trace. *)
Record World : Type := {
  state : DefaultRcState;
  handles : list bool;
  callbackRuns : nat;
  heldDisposers : nat;
  trace : list Effect
}.

Definition setState (w : World) (s : DefaultRcState) : World :=
  {| state := s; handles := handles w; callbackRuns := callbackRuns w;
     heldDisposers := heldDisposers w; trace := trace w |}.

Definition log (w : World) (es : list Effect) : World :=
  {| state := state w; handles := handles w; callbackRuns := callbackRuns w;
     heldDisposers := heldDisposers w; trace := trace w ++ es |}.

Definition setCount (s : DefaultRcState) (c : Z) : DefaultRcState :=
  {| disposeCallback := disposeCallback s; reviveCallback := reviveCallback s;
     count := c; ref := ref s |}.

Definition setRevive (s : DefaultRcState) (f : option RcReviveCallback) : DefaultRcState :=
  {| disposeCallback := disposeCallback s; reviveCallback := f;
     count := count s; ref := ref s |}.

Definition setRef (s : DefaultRcState) (r : option T) : DefaultRcState :=
  {| disposeCallback := disposeCallback s; reviveCallback := reviveCallback s;
     count := count s; ref := r |}.

(** [protected constructor(state)]: one more handle over [state]. *)
Definition construct (w : World) : World :=
  let h := length (handles w) in
  let s1 := setCount (state w) (count (state w) + 1) in
  let w1 :=
    {| state := s1; handles := handles w ++ [false];
       callbackRuns := callbackRuns w; heldDisposers := heldDisposers w;
       trace := trace w |} in
  let w2 :=
    match reviveCallback s1 with
    | Some f =>
        if count s1 =? 1
        then setState (log w1 [ReviveCalled f]) (setRevive s1 None)
        else w1
    | None => w1
    end in
  log w2 [Constructed h].

(** [static New(ref, disposeCallback?)]. *)
Definition New (r : T) (cb : option RcDisposeCallback) : World :=
  construct
    {| state := {| disposeCallback := cb; reviveCallback := None;
                   count := 0; ref := Some r |};
       handles := []; callbackRuns := 0; heldDisposers := 0; trace := [] |}.

(** [isRefDisposed()]. *)
Definition isRefDisposed (w : World) : bool :=
  match ref (state w) with None => true | Some _ => false end.

(** [isDisposed()] of handle [h]. *)
Definition isDisposed (h : nat) (w : World) : option bool := handles w !! h.

(** [protected disposeRef()]. With [state.ref] already [undefined] the
    call [this.state.ref!.dispose()] raises a [TypeError]. *)
Definition disposeRef (w : World) : World * option Thrown :=
  let w1 := log w [WillDisposeFired (ref (state w)); EmitterDisposed] in
  match ref (state w) with
  | Some r =>
      (setState (log w1 [TargetDisposed r]) (setRef (state w) None), None)
  | None =>
      (w1, Some (TypeError "Cannot read properties of undefined (reading 'dispose')"))
  end.

(** The function [() => { if (this.state.count === 0) this.disposeRef() }]
    handed to the dispose callback. It only reads the shared state, so
    every such function behaves alike. *)
Definition disposer (w : World) : World * option Thrown :=
  if count (state w) =? 0 then disposeRef w else (w, None).

(** [clone()] on handle [h]. A handle that was never created cannot be
    called: the world is left as it is. *)
Definition clone (h : nat) (w : World) : World * option Thrown :=
  match handles w !! h with
  | None => (w, None)
  | Some _ =>
      if isRefDisposed w
      then (w, Some (Error (message REF_DISPOSED)))
      else (construct w, None)
  end.

Definition markDisposed (h : nat) (w : World) : World :=
  {| state := state w; handles := <[h := true]> (handles w);
     callbackRuns := callbackRuns w; heldDisposers := heldDisposers w;
     trace := trace w |}.

(** The [if (this.state.disposeCallback) { ... }] branch of [dispose()]. *)
Definition runDisposeCallback (cb : RcDisposeCallback) (w : World)
  : World * option Thrown :=
  let n := callbackRuns w in
  let run := cb n in
  let w1 :=
    {| state := state w; handles := handles w; callbackRuns := S n;
       heldDisposers := heldDisposers w; trace := trace w ++ [CallbackCalled n] |} in
  let '(w2, thrown) := if callsDisposeNow run then disposer w1 else (w1, None) in
  match thrown with
  | Some e => (w2, Some e)
  | None =>
      let w3 :=
        {| state := state w2; handles := handles w2;
           callbackRuns := callbackRuns w2;
           heldDisposers :=
             if keepsDispose run then S (heldDisposers w2) else heldDisposers w2;
           trace := trace w2 |} in
      if returnsRevive run
      then (setState w3 (setRevive (state w3) (Some (ReviveFn n))), None)
      else (w3, None)
  end.

(** [dispose()] on handle [h]. *)
Definition dispose (h : nat) (w : World) : World * option Thrown :=
  match handles w !! h with
  | None => (w, None)
  | Some true => (log w [ConsoleTrace RC_DISPOSED], None)
  | Some false =>
      let w1 := log (markDisposed h w) [Decremented h] in
      let w2 := setState w1 (setCount (state w1) (count (state w1) - 1)) in
      if count (state w2) =? 0 then
        match disposeCallback (state w2) with
        | Some cb => runDisposeCallback cb w2
        | None => disposeRef w2
        end
      else (w2, None)
  end.

(** The environment calls a [dispose] function the callback kept. *)
Definition invokeDeferred (w : World) : World * option Thrown :=
  match heldDisposers w with
  | O => (w, None)
  | S _ => disposer w
  end.

(** A call made on the reference counter from outside. *)
Inductive Op : Type :=
  | OpClone (h : nat)
  | OpDispose (h : nat)
  | OpInvokeDeferred.

Definition step (w : World) (op : Op) : World :=
  match op with
  | OpClone h => (clone h w).1
  | OpDispose h => (dispose h w).1
  | OpInvokeDeferred => (invokeDeferred w).1
  end.

Definition run (ops : list Op) (w : World) : World := foldl step w ops.

(** Observations on the trace. *)
Definition targetDisposals (w : World) : nat := tally isTargetDisposed (trace w).
Definition handlesCreated (w : World) : nat := tally isConstructed (trace w).
Definition effectiveDisposes (w : World) : nat := tally isDecremented (trace w).
Definition reviveCalls (w : World) : nat := tally isReviveCalled (trace w).

(** What every reachable world satisfies: the trace agrees with the
    handles, [count] is the number of handles not yet disposed, the
    target was disposed once if it is gone and not at all otherwise, and
    it is gone only at count 0. *)
Record Inv (w : World) : Prop := {
  inv_created : handlesCreated w = length (handles w);
  inv_decremented : effectiveDisposes w = setFlags (handles w);
  inv_count : count (state w) = Z.of_nat (length (handles w)) - Z.of_nat (setFlags (handles w));
  inv_disposals : targetDisposals w = match ref (state w) with Some _ => 0%nat | None => 1%nat end;
  inv_gone : ref (state w) = None → count (state w) = 0
}.

(** Without a dispose callback nothing is ever deferred. *)
Record Plain (w : World) : Prop := {
  plain_callback : disposeCallback (state w) = None;
  plain_held : heldDisposers w = 0%nat;
  plain_zero : count (state w) = 0 → ref (state w) = None
}.

(** [ref()] on handle [h]: the wrapped resource, or the throw when it is
    gone; on a handle that was itself disposed the call only leaves a
    [console.trace]. *)
Definition refOf (h : nat) (w : World) : World * option (T + Thrown) :=
  match handles w !! h with
  | None => (w, None)
  | Some flag =>
      match ref (state w) with
      | None => (w, Some (inr (Error (message REF_DISPOSED))))
      | Some r =>
          (match flag with
           | true => log w [ConsoleTrace RC_DISPOSED]
           | false => w
           end,
           Some (inl r))
      end
  end.


(** The three effects of a [disposeRef()] that finds the target [r]. *)
Definition disposal (r : T) : list Effect :=
  [WillDisposeFired (Some r); EmitterDisposed; TargetDisposed r].

(** How the trace of a counter over [r] looks: while the target is stored
    it is [r] and nothing was disposed; once it is gone the trace holds
    one [disposal r], and no other disposal of a target. *)
Definition TraceShape (r : T) (w : World) : Prop :=
  match ref (state w) return Prop with
  | Some r' => r' = r ∧ tally isTargetDisposed (trace w) = 0%nat
  | None =>
      ∃ before after,
        trace w = before ++ disposal r ++ after
        ∧ tally isTargetDisposed before = 0%nat
        ∧ tally isTargetDisposed after = 0%nat
  end.





End WithResource.

Arguments DefaultRcState : clear implicits.
Arguments Effect : clear implicits.
Arguments World : clear implicits.

End Rc.

(** ** service-provider.ts *)

Module ServiceProvider.

(** Modelled from the spec: the [Event] type of the event module is not
    part of the sources at hand; the lifecycle only ever holds
    [Event.None], the event that never fires. *)
Inductive Event : Type := EventNone.

(** [ServiceLifecycleImpl]. *)
Record ServiceLifecycleImpl : Type := {
  onDispose : Event;
  onDisposeRef : Event
}.

Definition newServiceLifecycleImpl : ServiceLifecycleImpl :=
  {| onDispose := EventNone; onDisposeRef := EventNone |}.

(** [track<T extends Disposable>(disposable: T): T]. *)
Definition track (self : ServiceLifecycleImpl) (disposable : JsValue) : JsValue :=
  disposable.

(** How a call into a contribution completes. *)
Inductive Completion : Type :=
  | Return (v : JsValue)
  | Throw (e : Thrown).

Definition Factory : Type := JsValue → ServiceLifecycleImpl → Completion.

(** [ServiceContribution]: a function, a record of factories (the
    properties [contribution[serviceId]] finds on it), or, since nothing
    checks the binding, anything else (an array, a primitive), of which
    only [typeof] is looked at. *)
Inductive ServiceContribution : Type :=
  | ContributionFunction (f : string → JsValue → ServiceLifecycleImpl → Completion)
  | ContributionRecord (r : gmap string Factory)
  | ContributionOther (typeofName : string).

(** [ServiceContribution.record(...entries)]: later entries overwrite
    earlier ones with the same key. The map holds the properties the
    entries set; what [{}] inherits from [Object.prototype] is not
    modelled. *)
Definition record (entries : list (string * Factory)) : ServiceContribution :=
  ContributionRecord (foldl (λ result e, <[e.1 := e.2]> result) ∅ entries).

Inductive ConsoleEntry : Type :=
  | ConsoleError (text : string)
  | ConsoleErrorThrown (e : Thrown).

(** The set of disposables that were disposed. *)
Abbreviation Disposed := (gset nat).

(** [ServiceResult<T>]: [[service, dispose]]. *)
Record ServiceResult : Type := {
  service : JsValue;
  release : Disposed → Disposed
}.

(** [() => { /* TODO */ }]. *)
Definition releaseTodo : Disposed → Disposed := λ d, d.

Record DefaultServiceProvider : Type := {
  serviceContributions : list ServiceContribution
}.

Definition dquote : string := String "034"%char EmptyString.

Definition noServiceFound (serviceId : string) : Thrown :=
  Error ("no service found for " +:+ dquote +:+ serviceId +:+ dquote).

(** The body of the [try] up to the test of [service]; [None] is the
    [else] branch that logs and [continue]s. *)
Definition callContribution (contribution : ServiceContribution)
    (serviceId : string) (params : JsValue) (lifecycle : ServiceLifecycleImpl)
  : option Completion :=
  match contribution with
  | ContributionFunction f => Some (f serviceId params lifecycle)
  | ContributionRecord r =>
      match r !! serviceId with
      | Some factory => Some (factory params lifecycle)
      | None => Some (Return JsUndefined)
      end
  | ContributionOther _ => None
  end.

Definition typeofContribution (contribution : ServiceContribution) : string :=
  match contribution with
  | ContributionFunction _ => "function"
  | ContributionRecord _ => "object"
  | ContributionOther t => t
  end.

Definition logged {A : Type} (e : ConsoleEntry) (r : list ConsoleEntry * A)
  : list ConsoleEntry * A := (e :: r.1, r.2).

Fixpoint getServiceFrom (contributions : list ServiceContribution)
    (serviceId : string) (params : JsValue)
  : list ConsoleEntry * (ServiceResult + Thrown) :=
  match contributions with
  | [] => ([], inr (noServiceFound serviceId))
  | contribution :: rest =>
      let lifecycle := newServiceLifecycleImpl in
      match callContribution contribution serviceId params lifecycle with
      | None =>
          logged (ConsoleError ("unexpected contribution type: "
                                +:+ typeofContribution contribution))
                 (getServiceFrom rest serviceId params)
      | Some (Throw error) =>
          logged (ConsoleErrorThrown error) (getServiceFrom rest serviceId params)
      | Some (Return service) =>
          if truthy service
          then ([], inl {| service := service; release := releaseTodo |})
          else getServiceFrom rest serviceId params
      end
  end.

(** [getService(serviceId, params = {})]. *)
Definition getService (self : DefaultServiceProvider)
    (serviceId : string) (params : JsValue)
  : list ConsoleEntry * (ServiceResult + Thrown) :=
  getServiceFrom (serviceContributions self) serviceId params.

(** The value a contribution offers for a request: what it returns, when
    it returns and the value passes [if (service)]. *)
Definition offers (contribution : ServiceContribution)
    (serviceId : string) (params : JsValue) : option JsValue :=
  match callContribution contribution serviceId params newServiceLifecycleImpl with
  | Some (Return v) => if truthy v then Some v else None
  | _ => None
  end.

(** The reading "returns a defined value": what the contribution returns,
    when it returns something other than [undefined]. *)
Definition returnsDefined (contribution : ServiceContribution)
    (serviceId : string) (params : JsValue) : option JsValue :=
  match callContribution contribution serviceId params newServiceLifecycleImpl with
  | Some (Return v) => if defined v then Some v else None
  | _ => None
  end.

(** What [getService] writes with [console.error] for a contribution it
    passes over: the error the contribution threw, or the complaint about
    its type; nothing for one that returned. *)
Definition complaint (contribution : ServiceContribution)
    (serviceId : string) (params : JsValue) : list ConsoleEntry :=
  match callContribution contribution serviceId params newServiceLifecycleImpl with
  | None =>
      [ConsoleError ("unexpected contribution type: " +:+ typeofContribution contribution)]
  | Some (Throw error) => [ConsoleErrorThrown error]
  | Some (Return _) => []
  end.

End ServiceProvider.

(** ** rpc.ts: the proxy handler *)

Module RpcProxy.

(** [string | symbol]: a string key, or a symbol (known by identity). *)
Abbreviation PropertyKey := (string + nat)%type.

(** The function objects the handler hands out. Closures and emitters are
    objects with an identity: the number they were allocated under. *)
Inductive Member : Type :=
  | DisposeFn                              (* the closure cached under 'dispose' *)
  | EventOf (emitter : nat)                (* [emitter.event] *)
  | RequestFn (id : nat) (property : string).
      (* [async (...params) => this.rpcConnection.sendRequest(property, params)] *)

(** The promise [sendRequest] returns for the request numbered [request]. *)
Inductive Promise : Type := ResponseOf (request : nat).

Inductive Settlement : Type :=
  | Fulfilled (v : JsValue)
  | Rejected (e : JsValue).

(** The promise of an [async] function that returns [p] settles as [p]
    does; [p] settles with the response to its request. *)
Definition settles (responses : nat → option Settlement) (p : Promise)
  : option Settlement :=
  match p with ResponseOf k => responses k end.

(** [RpcConnection] is an interface; the model records the calls made on
    it. *)
Record RpcConnection : Type := {
  requests : list (string * list JsValue);
  closeCalls : nat
}.

Definition sendRequest (method : string) (params : list JsValue)
    (c : RpcConnection) : RpcConnection * Promise :=
  ({| requests := requests c ++ [(method, params)]; closeCalls := closeCalls c |},
   ResponseOf (length (requests c))).

Definition close (c : RpcConnection) : RpcConnection :=
  {| requests := requests c; closeCalls := S (closeCalls c) |}.

Inductive EmitterEffect : Type :=
  | Fired (emitter : nat) (v : JsValue)
  | EmitterDisposed (emitter : nat).

(** [RpcProxyHandler]. *)
Record RpcProxyHandler : Type := {
  emitters : gmap string nat;
  cache : gmap (string + nat) Member;
  disposed : bool;
  rpcConnection : RpcConnection;
  allocated : nat;
  emitted : list EmitterEffect
}.

Definition invalidProxy : Thrown := Error "this instance is no longer valid!".
Definition stringsOnly : Thrown := Error "you can only index this proxy with strings".

(** The constructor: [cache.set('dispose', ...)]; the notification and
    close listeners it registers are [onNotification] and [dispose]. *)
Definition newRpcProxyHandler (c : RpcConnection) : RpcProxyHandler :=
  {| emitters := ∅; cache := {[ inl "dispose" := DisposeFn ]}; disposed := false;
     rpcConnection := c; allocated := 0; emitted := [] |}.

(** [dispose()], also the [onClose] listener. *)
Definition dispose (h : RpcProxyHandler) : RpcProxyHandler :=
  {| emitters := ∅; cache := ∅; disposed := true;
     rpcConnection := rpcConnection h; allocated := allocated h;
     emitted := emitted h ++ ((λ kv, EmitterDisposed kv.2) <$> map_to_list (emitters h)) |}.

(** The listener given to [handleNotification]. *)
Definition onNotification (eventName : string) (params : list JsValue)
    (h : RpcProxyHandler) : RpcProxyHandler :=
  match emitters h !! eventName with
  | Some e =>
      {| emitters := emitters h; cache := cache h; disposed := disposed h;
         rpcConnection := rpcConnection h; allocated := allocated h;
         emitted := emitted h ++ [Fired e (default JsUndefined (head params))] |}
  | None => h
  end.

(** Calling a function obtained from the proxy. *)
Definition call (m : Member) (args : list JsValue) (h : RpcProxyHandler)
  : RpcProxyHandler * option Promise :=
  match m with
  | DisposeFn =>
      if disposed h then (h, None)
      else ({| emitters := emitters h; cache := cache h; disposed := true;
               rpcConnection := close (rpcConnection h);
               allocated := allocated h; emitted := emitted h |}, None)
  | RequestFn _ property =>
      let '(c, p) := sendRequest property args (rpcConnection h) in
      ({| emitters := emitters h; cache := cache h; disposed := disposed h;
          rpcConnection := c; allocated := allocated h; emitted := emitted h |},
       Some p)
  | EventOf _ => (h, None)
  end.

Section WithReflection.

(** [Reflection.isEventName], injected into the handler. *)
Variable isEventName : string → bool.

(** [get(target, property, receiver)]. Every cached value is a function,
    hence truthy: [if (!returnValue)] is the cache miss. *)
Definition get (property : string + nat) (h : RpcProxyHandler)
  : RpcProxyHandler * (Member + Thrown) :=
  if disposed h then (h, inr invalidProxy)
  else
    match property with
    | inr _ => (h, inr stringsOnly)
    | inl name =>
        match cache h !! property with
        | Some returnValue => (h, inl returnValue)
        | None =>
            let id := allocated h in
            if isEventName name then
              ({| emitters := <[name := id]> (emitters h);
                  cache := <[property := EventOf id]> (cache h);
                  disposed := disposed h; rpcConnection := rpcConnection h;
                  allocated := S id; emitted := emitted h |},
               inl (EventOf id))
            else
              ({| emitters := emitters h;
                  cache := <[property := RequestFn id name]> (cache h);
                  disposed := disposed h; rpcConnection := rpcConnection h;
                  allocated := S id; emitted := emitted h |},
               inl (RequestFn id name))
        end
    end.

(** What holds of the cache of every handler: while the handler is not
    disposed the closure set by the constructor is still cached under
    'dispose', and a name that is not an event name is cached, if at all,
    with a request function for that very name. *)
Record CacheInv (h : RpcProxyHandler) : Prop := {
  cache_dispose : disposed h = false → cache h !! inl "dispose" = Some DisposeFn;
  cache_request : ∀ name m,
    cache h !! inl name = Some m → name ≠ "dispose" → isEventName name = false →
    ∃ id, m = RequestFn id name
}.

(** [proxy.dispose()]: read the property, call what was read. *)
Definition proxyDispose (h : RpcProxyHandler) : RpcProxyHandler :=
  match get (inl "dispose") h with
  | (h1, inl f) => (call f [] h1).1
  | (h1, inr _) => h1
  end.

(** What can happen to a proxy. *)
Inductive Op : Type :=
  | OpGet (property : string + nat)
  | OpCall (m : Member) (args : list JsValue)
  | OpConnectionClosed
  | OpNotification (eventName : string) (params : list JsValue).

Definition step (h : RpcProxyHandler) (op : Op) : RpcProxyHandler :=
  match op with
  | OpGet property => (get property h).1
  | OpCall m args => (call m args h).1
  | OpConnectionClosed => dispose h
  | OpNotification eventName params => onNotification eventName params h
  end.

Definition run (ops : list Op) (h : RpcProxyHandler) : RpcProxyHandler :=
  foldl step h ops.

End WithReflection.

(** [DefaultRpcProxyProvider]: one proxy per connection. Connections and
    proxies are objects, known by identity; the [WeakMap] is a map from the
    former to the latter. [initialize] stores the connection provider. *)
Record DefaultRpcProxyProvider : Type := {
  initialized : bool;
  connectionToProxyCache : gmap nat nat;
  proxiesCreated : nat
}.

Definition newDefaultRpcProxyProvider : DefaultRpcProxyProvider :=
  {| initialized := false; connectionToProxyCache := ∅; proxiesCreated := 0 |}.

Definition initialize (self : DefaultRpcProxyProvider) : DefaultRpcProxyProvider :=
  {| initialized := true; connectionToProxyCache := connectionToProxyCache self;
     proxiesCreated := proxiesCreated self |}.

(** [getProxy(serviceId, params)], given the connection the connection
    provider answers with for this call. A proxy is an object, so
    [if (!proxy)] is the cache miss, on which [createProxy] makes a new
    one. *)
Definition getProxy (rpcConnection : nat) (self : DefaultRpcProxyProvider)
  : DefaultRpcProxyProvider * (nat + Thrown) :=
  if initialized self then
    match connectionToProxyCache self !! rpcConnection with
    | Some proxy => (self, inl proxy)
    | None =>
        let proxy := proxiesCreated self in
        ({| initialized := true;
            connectionToProxyCache := <[rpcConnection := proxy]> (connectionToProxyCache self);
            proxiesCreated := S proxy |},
         inl proxy)
    end
  else (self, inr (TypeError "this.rpcConnectionProvider is not a function")).

(** Several [getProxy] calls in a row. *)
Fixpoint getProxies (rpcConnections : list nat) (self : DefaultRpcProxyProvider)
  : DefaultRpcProxyProvider * list (nat + Thrown) :=
  match rpcConnections with
  | [] => (self, [])
  | c :: rest =>
      let '(self1, r) := getProxy c self in
      let '(self2, rs) := getProxies rest self1 in
      (self2, r :: rs)
  end.

(** What links the cache and the emitters of a handler: an event name is
    cached with the event of the emitter registered under that name. *)
Definition EmitterInv (isEventName : string → bool) (h : RpcProxyHandler) : Prop :=
  (disposed h = false → cache h !! inl "dispose" = Some DisposeFn)
  ∧ ∀ name m,
      cache h !! inl name = Some m → name ≠ "dispose" → isEventName name = true →
      ∃ e, m = EventOf e ∧ emitters h !! name = Some e.

End RpcProxy.

(** ** route-handler.ts and the backend-proxying route *)

Module RouteHandler.

Section WithRoute.

(** [new Route(spec).match(path)] of the [route-parser] package: the
    named segments of [spec] bound by [path], or no match. *)
Variable Route : string → string → option (gmap string string).

(** [accept] and what running a handler amounts to; handlers are
    written in continuation style. *)
Context {Accept Result : Type}.

Definition Next : Type := option Thrown → Result.
Definition Handler : Type := gmap string JsValue → Accept → Next → Result.

(** [paramsContainsPath]: [typeof params.path === 'string']. *)
Definition paramsContainsPath (params : gmap string JsValue) : option string :=
  match params !! "path" with
  | Some (JsString path) => Some path
  | _ => None
  end.

(** [{ spec, params: routeParams }]. *)
Definition routeRecord (spec : string) (routeParams : gmap string string) : JsValue :=
  JsRecord {[ "spec" := JsString spec; "params" := JsRecord (JsString <$> routeParams) ]}.

(** [createRouteHandler(spec, handler)]. *)
Definition createRouteHandler (spec : string) (handler : Handler) : Handler :=
  let routeMatcher := Route spec in
  λ params accept next,
    match paramsContainsPath params with
    | None => next None
    | Some path =>
        match routeMatcher path with
        | None => next None
        | Some routeParams =>
            handler (<["route" := routeRecord spec routeParams]> params) accept next
        end
    end.

End WithRoute.

(** Reading [route.params.<name>] off the params a handler receives. *)
Definition routeParam (params : gmap string JsValue) (name : string) : option JsValue :=
  match params !! "route" with
  | Some (JsRecord route) =>
      match route !! "params" with
      | Some (JsRecord routeParams) => routeParams !! name
      | _ => None
      end
  | _ => None
  end.

Definition routeSpec (params : gmap string JsValue) : option JsValue :=
  match params !! "route" with
  | Some (JsRecord route) => route !! "spec"
  | _ => None
  end.

End RouteHandler.

Module BackendProxying.

(** Modelled from the spec: the [Deferred] class (its [state] and
    [resolve]) is imported from the common package and is not part of the
    sources at hand. A deferred starts [unresolved]; [resolve] settles it
    with a value. *)
Inductive DeferredState : Type := unresolved | resolved | rejected.

Record Deferred (A : Type) : Type := {
  state : DeferredState;
  value : option A
}.
Arguments state {A} _.
Arguments value {A} _.

Definition newDeferred {A : Type} : Deferred A :=
  {| state := unresolved; value := None |}.

Definition resolve {A : Type} (d : Deferred A) (v : A) : Deferred A :=
  match state d with
  | unresolved => {| state := resolved; value := Some v |}
  | _ => d
  end.

Section WithRoute.

Variable Route : string → string → option (gmap string string).

(** [AnyConnection]. *)
Context {Connection : Type}.

(** [BACKEND_PROXYING_ROUTE = new Route('/backend-proxying/')]. *)
Definition BACKEND_PROXYING_ROUTE : string → option (gmap string string) :=
  Route "/backend-proxying/".

Record FrontendServiceConnectionProvider : Type := {
  deferredConnection : Deferred Connection
}.

Definition newFrontendServiceConnectionProvider : FrontendServiceConnectionProvider :=
  {| deferredConnection := newDeferred |}.

(** What the handler did with an incoming connection. *)
Inductive Outcome : Type :=
  | CalledNext (error : option Thrown)
  | Accepted (connection : Connection).

Definition invalidConnection : Thrown := Error "invalid connection".

(** The handler built by [createConnectionHandler()], applied to
    [{ path }]; [accept] is given by the connection [accept()] returns. *)
Definition connectionHandler (self : FrontendServiceConnectionProvider)
    (path : JsValue) (accept : Connection)
  : FrontendServiceConnectionProvider * Outcome :=
  match path with
  | JsString p =>
      match BACKEND_PROXYING_ROUTE p with
      | None => (self, CalledNext None)
      | Some _ =>
          match state (deferredConnection self) with
          | unresolved =>
              let connection := accept in
              ({| deferredConnection := resolve (deferredConnection self) connection |},
               Accepted connection)
          | _ => (self, CalledNext (Some invalidConnection))
          end
      end
  | _ => (self, CalledNext None)
  end.

(** Incoming connections, one after the other. *)
Fixpoint serve (self : FrontendServiceConnectionProvider)
    (incoming : list (JsValue * Connection))
  : FrontendServiceConnectionProvider * list Outcome :=
  match incoming with
  | [] => (self, [])
  | (path, accept) :: rest =>
      let '(self1, o) := connectionHandler self path accept in
      let '(self2, os) := serve self1 rest in
      (self2, o :: os)
  end.

(** The path of an incoming connection is on the route. *)
Definition onRoute (path : JsValue) : bool :=
  match path with
  | JsString p => bool_decide (is_Some (BACKEND_PROXYING_ROUTE p))
  | _ => false
  end.

(** What a connection gets once the deferred connection is settled. *)
Definition afterFirst (x : JsValue * Connection) : Outcome :=
  CalledNext (if onRoute x.1 then Some invalidConnection else None).

End WithRoute.

End BackendProxying.

(** ** inversify-utils.ts *)

Module InversifyUtils.

Section WithCollect.

(** What is collected from a container. *)
Context {B : Type}.

(** Containers are objects known by identity; [parents] holds the [parent]
    property of each (no entry: [null]). [collect] reads the container it
    is given and the parent links as they are when it is called. *)
Variable collect : gmap nat nat → nat → list B.

(** [container.parent = parent]. *)
Definition setParent (parents : gmap nat nat) (container : nat) (parent : option nat)
  : gmap nat nat :=
  match parent with
  | Some p => <[container := p]> parents
  | None => delete container parents
  end.

(** [collectRecursive(container, collect)]: the [do ... while] loop, which
    need not end (a cycle of parents); [fuel] bounds its rounds. *)
Fixpoint collectRecursive (fuel : nat) (parents : gmap nat nat) (current : nat)
    (result : list B) : option (gmap nat nat * list B) :=
  match fuel with
  | O => None
  | S fuel' =>
      let parent := parents !! current in
      let parents1 := setParent parents current None in
      let result1 := result ++ collect parents1 current in
      let parents2 := setParent parents1 current parent in
      match parents2 !! current with
      | Some next => collectRecursive fuel' parents2 next result1
      | None => Some (parents2, result1)
      end
  end.

(** The containers from [container] up to the root. *)
Inductive Ancestry (parents : gmap nat nat) : nat → list nat → Prop :=
  | ancestry_root container :
      parents !! container = None → Ancestry parents container [container]
  | ancestry_parent container parent chain :
      parents !! container = Some parent →
      Ancestry parents parent chain →
      Ancestry parents container (container :: chain).

End WithCollect.

End InversifyUtils.

(** ** The JSON-RPC connection handler of the backend module *)

Module JsonRpcHandler.

Section WithRoute.

(** [JSON_RPC_ROUTE.match(path)] and the [serviceId] of the match: the
    route is declared in the JSON-RPC protocol module, which is not part of
    the sources at hand; [serviceId] is its named segment (the frontend
    builds paths with [JSON_RPC_ROUTE.reverse({ serviceId })]). *)
Variable JSON_RPC_ROUTE : string → option string.

Context {Connection : Type}.

Inductive Outcome : Type :=
  | CalledNext
  | Served (service : JsValue) (connection : Connection)
  | Threw (e : Thrown).

(** The handler bound as JSON-RPC [ConnectionHandler], applied to
    [{ path }]; [getService] is called without params, hence with [{}]. *)
Definition jsonRpcConnectionHandler (serviceProvider : ServiceProvider.DefaultServiceProvider)
    (path : JsValue) (accept : Connection) : Outcome :=
  match path with
  | JsString p =>
      match JSON_RPC_ROUTE p with
      | None => CalledNext
      | Some serviceId =>
          match (ServiceProvider.getService serviceProvider serviceId (JsRecord ∅)).2 with
          | inr e => Threw e
          | inl result =>
              if truthy (ServiceProvider.service result)
              then Served (ServiceProvider.service result) accept
              else CalledNext
          end
      end
  | _ => CalledNext
  end.

End WithRoute.

End JsonRpcHandler.

(** ** agent-service.ts *)

Module AgentService.

(** [Agent], of which the service reads the [id]. *)
Record Agent : Type := {
  id : string;
  name : string
}.

(** [AgentServiceImpl]; [agentsProvider] stands for what
    [agentsProvider.getContributions()] returns. *)
Record AgentServiceImpl : Type := {
  agentsProvider : list Agent;
  disabledAgents : gset string;
  _agents : list Agent
}.

Definition newAgentServiceImpl (contributions : list Agent) : AgentServiceImpl :=
  {| agentsProvider := contributions; disabledAgents := ∅; _agents := [] |}.

(** [private get agents()]. *)
Definition agents (self : AgentServiceImpl) : list Agent :=
  agentsProvider self ++ _agents self.

Definition registerAgent (agent : Agent) (self : AgentServiceImpl) : AgentServiceImpl :=
  {| agentsProvider := agentsProvider self; disabledAgents := disabledAgents self;
     _agents := _agents self ++ [agent] |}.

Definition isEnabled (agentId : string) (self : AgentServiceImpl) : bool :=
  negb (bool_decide (agentId ∈ disabledAgents self)).

Definition getAgents (self : AgentServiceImpl) : list Agent :=
  filter (λ agent, isEnabled (id agent) self = true) (agents self).

Definition getAllAgents (self : AgentServiceImpl) : list Agent := agents self.

Definition enableAgent (agentId : string) (self : AgentServiceImpl) : AgentServiceImpl :=
  {| agentsProvider := agentsProvider self;
     disabledAgents := disabledAgents self ∖ {[agentId]};
     _agents := _agents self |}.

Definition disableAgent (agentId : string) (self : AgentServiceImpl) : AgentServiceImpl :=
  {| agentsProvider := agentsProvider self;
     disabledAgents := {[agentId]} ∪ disabledAgents self;
     _agents := _agents self |}.

(** The calls that change the service. *)
Inductive Op : Type :=
  | OpRegister (agent : Agent)
  | OpEnable (agentId : string)
  | OpDisable (agentId : string).

Definition step (self : AgentServiceImpl) (op : Op) : AgentServiceImpl :=
  match op with
  | OpRegister agent => registerAgent agent self
  | OpEnable agentId => enableAgent agentId self
  | OpDisable agentId => disableAgent agentId self
  end.

Definition run (ops : list Op) (self : AgentServiceImpl) : AgentServiceImpl :=
  foldl step self ops.

(** The agents registered by a sequence of calls, in order. *)
Definition registered (ops : list Op) : list Agent :=
  omap (λ op, match op with OpRegister agent => Some agent | _ => None end) ops.

(** Whether the last [enableAgent]/[disableAgent] for [agentId] among the
    calls, if any, was an enable; [start] when there is none. *)
Fixpoint lastToggle (agentId : string) (start : bool) (ops : list Op) : bool :=
  match ops with
  | [] => start
  | OpEnable a :: rest =>
      lastToggle agentId (if decide (a = agentId) then true else start) rest
  | OpDisable a :: rest =>
      lastToggle agentId (if decide (a = agentId) then false else start) rest
  | OpRegister _ :: rest => lastToggle agentId start rest
  end.

End AgentService.

(** A matcher in the style of [route-parser] for patterns made of literal
    and [:name] segments, to run the handlers on concrete routes. *)
Module SegmentRoute.

Fixpoint segments (s : string) (current : string) : list string :=
  match s with
  | EmptyString => [current]
  | String c rest =>
      if Ascii.eqb c "/"%char
      then current :: segments rest EmptyString
      else segments rest (current +:+ String c EmptyString)
  end.

Fixpoint matchSegments (pattern path : list string) : option (gmap string string) :=
  match pattern, path with
  | [], [] => Some ∅
  | p :: ps, x :: xs =>
      match p with
      | String ":"%char name =>
          if String.eqb x EmptyString then None
          else (λ m, <[name := x]> m) <$> matchSegments ps xs
      | _ => if String.eqb p x then matchSegments ps xs else None
      end
  | _, _ => None
  end.

Definition Route (spec path : string) : option (gmap string string) :=
  matchSegments (segments spec EmptyString) (segments path EmptyString).

End SegmentRoute.

(** ** Concrete callbacks, contributions and handlers *)

(** A dispose callback that drops the [dispose] function it is given. *)
Definition ignoringCallback : Rc.RcDisposeCallback :=
  λ _, {| Rc.callsDisposeNow := false; Rc.keepsDispose := false; Rc.returnsRevive := false |}.

(** A debounce: the callback keeps [dispose] for later and returns a revive
    function. *)
Definition debounceCallback : Rc.RcDisposeCallback :=
  λ _, {| Rc.callsDisposeNow := false; Rc.keepsDispose := true; Rc.returnsRevive := true |}.


(** A contribution that returns the number 0, and one that returns a
    service object. *)
Definition zeroContribution : ServiceProvider.ServiceContribution :=
  ServiceProvider.ContributionFunction (λ _ _ _, ServiceProvider.Return (JsNumber 0)).

Definition objectContribution (id : nat) : ServiceProvider.ServiceContribution :=
  ServiceProvider.ContributionFunction (λ _ _ _, ServiceProvider.Return (JsObject id)).

(** A contribution in the way of the terminal module: it creates the
    disposable [d], passes it to [lifecycle.track] and returns it. *)
Definition trackingContribution (d : nat) : ServiceProvider.ServiceContribution :=
  ServiceProvider.record
    [("/services/terminals",
      λ _ lifecycle, ServiceProvider.Return (ServiceProvider.track lifecycle (JsObject d)))].

(** The usual naming convention for events: [on] followed by a capital. *)
Definition onCapital (name : string) : bool :=
  match name with
  | String "o" (String "n" (String c _)) =>
      (Nat.leb 65 (nat_of_ascii c) && Nat.leb (nat_of_ascii c) 90)%bool
  | _ => false
  end.

Definition emptyConnection : RpcProxy.RpcConnection :=
  {| RpcProxy.requests := []; RpcProxy.closeCalls := 0 |}.

(** What a handler of the example does: it records how it ended. *)
Inductive Served : Type :=
  | Declined (error : option Thrown)
  | Handled (serviceId : option JsValue) (accepted : nat).

(** * Properties *)

Lemma tally_app {A : Type} (p : A → bool) (l k : list A) :
  tally p (l ++ k) = (tally p l + tally p k)%nat.
Proof. unfold tally. by rewrite filter_app, length_app. Qed.

Lemma tally_nil {A : Type} (p : A → bool) : tally p [] = 0%nat.
Proof. reflexivity. Qed.

Lemma tally_cons {A : Type} (p : A → bool) (x : A) (l : list A) :
  tally p (x :: l) = ((if p x then 1 else 0) + tally p l)%nat.
Proof.
  unfold tally. rewrite filter_cons.
  destruct (p x); case_decide; simpl; congruence.
Qed.

Lemma tally_le_length {A : Type} (p : A → bool) (l : list A) :
  (tally p l ≤ length l)%nat.
Proof. unfold tally. apply length_filter. Qed.

Lemma setFlags_insert (l : list bool) (h : nat) :
  l !! h = Some false → setFlags (<[h := true]> l) = S (setFlags l).
Proof.
  revert h. induction l as [|b l IH]; intros [|h] Hh; simpl in *; try done.
  - injection Hh as ->. unfold setFlags. by rewrite !tally_cons.
  - unfold setFlags in *. rewrite !tally_cons. rewrite (IH h Hh). lia.
Qed.

Lemma setFlags_lt (l : list bool) (h : nat) :
  l !! h = Some false → (setFlags l < length l)%nat.
Proof.
  revert h. induction l as [|b l IH]; intros [|h] Hh; simpl in *; try done.
  - injection Hh as ->. unfold setFlags. rewrite tally_cons.
    pose proof (tally_le_length (λ b, b) l). simpl. lia.
  - unfold setFlags in *. rewrite tally_cons. specialize (IH h Hh).
    destruct b; simpl; lia.
Qed.

Lemma setFlags_snoc (l : list bool) : setFlags (l ++ [false]) = setFlags l.
Proof. unfold setFlags. rewrite tally_app, tally_cons, tally_nil. simpl. lia. Qed.

Section RcTheory.

Context {T : Type}.
Import Rc.

Implicit Types (w : World T) (h : nat) (ops : list Op).

Ltac obs :=
  unfold handlesCreated, effectiveDisposes, targetDisposals, reviveCalls in *;
  simpl in *;
  rewrite ?tally_app, ?tally_cons, ?tally_nil in *; simpl in *.

Lemma Inv_New (r : T) cb : Inv (New r cb).
Proof. split; obs; try done. Qed.

Lemma Plain_New (r : T) : Plain (New r None).
Proof. split; simpl; try done. Qed.

Lemma Inv_construct w :
  Inv w → ref (state w) ≠ None → Inv (construct w).
Proof.
  intros [H1 H2 H3 H4 H5] Hr.
  destruct w as [[cb rv c r] hs n k tr]. simpl in *.
  unfold construct; simpl.
  destruct rv as [f|]; simpl; [destruct (c + 1 =? 1); simpl|];
    (split; obs; rewrite ?length_app, ?setFlags_snoc; simpl; try lia; try done).
Qed.

Lemma Inv_disposeRef w :
  Inv w → count (state w) = 0 → Inv (disposeRef w).1.
Proof.
  intros [H1 H2 H3 H4 H5] Hc.
  destruct w as [[cb rv c r] hs n k tr]. simpl in *.
  unfold disposeRef; simpl.
  destruct r as [r|]; simpl; split; obs; try lia; try done.
Qed.

Lemma Inv_disposer w : Inv w → Inv (disposer w).1.
Proof.
  intros HI. unfold disposer.
  destruct (count (state w) =? 0) eqn:Hc; [|done].
  apply Inv_disposeRef; [done | lia].
Qed.

Lemma Inv_clone w h : Inv w → Inv (clone h w).1.
Proof.
  intros HI. unfold clone, isRefDisposed.
  destruct (handles w !! h); [|done].
  destruct (ref (state w)) eqn:Hr; simpl; [|done].
  apply Inv_construct; [done | congruence].
Qed.

Lemma Inv_invokeDeferred w : Inv w → Inv (invokeDeferred w).1.
Proof.
  intros HI. unfold invokeDeferred.
  destruct (heldDisposers w); [done | by apply Inv_disposer].
Qed.

(** Bookkeeping that leaves the shared state, the handles and the trace
    alone keeps the invariant. *)
Lemma Inv_ext w w' :
  Inv w →
  count (state w') = count (state w) → ref (state w') = ref (state w) →
  handles w' = handles w → trace w' = trace w →
  Inv w'.
Proof.
  intros [H1 H2 H3 H4 H5] Ec Er Eh Et.
  split; unfold handlesCreated, effectiveDisposes, targetDisposals in *;
    rewrite ?Ec, ?Er, ?Eh, ?Et; done.
Qed.

Lemma Inv_runDisposeCallback cb w :
  Inv w → Inv (runDisposeCallback cb w).1.
Proof.
  intros HI. unfold runDisposeCallback.
  set (w1 := {| state := state w; handles := handles w;
                callbackRuns := S (callbackRuns w);
                heldDisposers := heldDisposers w;
                trace := trace w ++ [CallbackCalled (callbackRuns w)] |}).
  assert (HI1 : Inv w1).
  { destruct HI as [H1 H2 H3 H4 H5]. split; subst w1; obs; try lia; try done. }
  destruct (callsDisposeNow (cb (callbackRuns w))).
  - pose proof (Inv_disposer w1 HI1) as HI2.
    destruct (disposer w1) as [w2 [e|]]; simpl in *; [done|].
    destruct (returnsRevive (cb (callbackRuns w))); simpl;
      eapply Inv_ext; eauto.
  - destruct (returnsRevive (cb (callbackRuns w))); simpl;
      eapply Inv_ext; eauto.
Qed.

Lemma Inv_dispose w h : Inv w → Inv (dispose h w).1.
Proof.
  intros HI. unfold dispose.
  destruct (handles w !! h) as [[|]|] eqn:Hh; [| |done].
  - destruct HI as [H1 H2 H3 H4 H5]. split; obs; try lia; try done.
  - set (w2 := setState _ _).
    assert (HI2 : Inv w2).
    { pose proof (setFlags_lt _ _ Hh) as Hlt.
      pose proof (setFlags_insert _ _ Hh) as Hins.
      destruct HI as [H1 H2 H3 H4 H5].
      assert (Hr : ref (state w) ≠ None) by (intros E; specialize (H5 E); lia).
      split; subst w2; obs; rewrite ?length_insert, ?Hins; try lia; try done. }
    destruct (count (state w2) =? 0) eqn:Hc; [|exact HI2].
    destruct (disposeCallback (state w2)).
    + by apply Inv_runDisposeCallback.
    + apply Inv_disposeRef; [done | lia].
Qed.

Lemma Inv_step w op : Inv w → Inv (step w op).
Proof.
  destruct op; simpl; auto using Inv_clone, Inv_dispose, Inv_invokeDeferred.
Qed.

Lemma Inv_run ops w : Inv w → Inv (run ops w).
Proof.
  revert w. induction ops as [|op ops IH]; intros w HI; simpl; [done|].
  apply IH. by apply Inv_step.
Qed.

Lemma Inv_reachable (r : T) cb ops : Inv (run ops (New r cb)).
Proof. apply Inv_run, Inv_New. Qed.

Lemma Inv_count_nonneg w : Inv w → 0 ≤ count (state w).
Proof.
  intros [_ _ H3 _ _]. pose proof (tally_le_length (λ b, b) (handles w)).
  unfold setFlags in *. lia.
Qed.

Lemma Inv_at_most_once w : Inv w → (targetDisposals w ≤ 1)%nat.
Proof. intros [_ _ _ H4 _]. rewrite H4. destruct (ref (state w)); lia. Qed.

(** The target has been disposed only if every handle was. *)
Lemma Inv_only_after w :
  Inv w → targetDisposals w = 1%nat → effectiveDisposes w = handlesCreated w.
Proof.
  intros [H1 H2 H3 H4 H5] Hd. rewrite H4 in Hd.
  destruct (ref (state w)) eqn:Hr; [done|].
  specialize (H5 eq_refl). lia.
Qed.

(** *** Nothing re-arms the target *)

Lemma disposeRef_ref w : ref (state (disposeRef w).1) = None.
Proof.
  unfold disposeRef. destruct (ref (state w)) eqn:Hr; simpl; done.
Qed.

Lemma disposer_ref w :
  ref (state w) = None → ref (state (disposer w).1) = None.
Proof.
  intros Hr. unfold disposer. destruct (count (state w) =? 0); [|done].
  apply disposeRef_ref.
Qed.

Lemma runDisposeCallback_ref cb w :
  ref (state w) = None → ref (state (runDisposeCallback cb w).1) = None.
Proof.
  intros Hr. unfold runDisposeCallback.
  set (w1 := Build_World _ _ _ _ _).
  assert (Hr1 : ref (state w1) = None) by done.
  destruct (callsDisposeNow (cb (callbackRuns w))).
  - pose proof (disposer_ref w1 Hr1) as Hr2.
    destruct (disposer w1) as [w2 [e|]]; simpl in *; [done|].
    by destruct (returnsRevive (cb (callbackRuns w))).
  - by destruct (returnsRevive (cb (callbackRuns w))).
Qed.

Lemma step_ref_gone w op :
  ref (state w) = None → ref (state (step w op)) = None.
Proof.
  intros Hr. destruct op as [h|h|]; simpl.
  - unfold clone, isRefDisposed. rewrite Hr. by destruct (handles w !! h).
  - unfold dispose. destruct (handles w !! h) as [[|]|]; [done| |done].
    set (w2 := setState _ _).
    assert (Hr2 : ref (state w2) = None) by done.
    destruct (count (state w2) =? 0); [|done].
    destruct (disposeCallback (state w2)).
    + by apply runDisposeCallback_ref.
    + apply disposeRef_ref.
  - unfold invokeDeferred. destruct (heldDisposers w); [done|].
    by apply disposer_ref.
Qed.

Lemma run_ref_gone ops w :
  ref (state w) = None → ref (state (run ops w)) = None.
Proof.
  revert w. induction ops as [|op ops IH]; intros w Hr; simpl; [done|].
  by apply IH, step_ref_gone.
Qed.

(** *** Without a dispose callback *)

Lemma Plain_construct w : Inv w → Plain w → Plain (construct w).
Proof.
  intros HI [P1 P2 P3]. pose proof (Inv_count_nonneg w HI) as Hc.
  destruct w as [[cb rv c r] hs n k tr]. simpl in *.
  unfold construct; simpl.
  destruct rv as [f|]; simpl; [destruct (c + 1 =? 1); simpl|];
    (split; simpl; try done; lia).
Qed.

Lemma Plain_disposeRef w :
  disposeCallback (state w) = None → heldDisposers w = 0%nat →
  Plain (disposeRef w).1.
Proof.
  intros P1 P2. unfold disposeRef.
  destruct (ref (state w)) eqn:Hr; simpl; split; simpl; try done.
Qed.

Lemma Plain_step w op : Inv w → Plain w → Plain (step w op).
Proof.
  intros HI HP. destruct op as [h|h|]; simpl.
  - unfold clone, isRefDisposed. destruct (handles w !! h); [|done].
    destruct (ref (state w)); simpl; [by apply Plain_construct | done].
  - unfold dispose. destruct (handles w !! h) as [[|]|]; [| |done].
    + destruct HP as [P1 P2 P3]. split; done.
    + set (w2 := setState _ _).
      assert (Hcb : disposeCallback (state w2) = None) by apply HP.
      assert (Hheld : heldDisposers w2 = 0%nat) by apply HP.
      destruct (count (state w2) =? 0) eqn:Hc.
      * rewrite Hcb. by apply Plain_disposeRef.
      * split; try done. intros Hz. apply Z.eqb_neq in Hc. done.
  - unfold invokeDeferred. destruct HP as [P1 P2 P3]. rewrite P2. by split.
Qed.

Lemma Inv_Plain_run ops w : Inv w → Plain w → Inv (run ops w) ∧ Plain (run ops w).
Proof.
  revert w. induction ops as [|op ops IH]; intros w HI HP; simpl; [done|].
  apply IH; [by apply Inv_step | by apply Plain_step].
Qed.

(** With no dispose callback the target is gone exactly at count 0. *)
Lemma Plain_gone_iff w : Inv w → Plain w → ref (state w) = None ↔ count (state w) = 0.
Proof. intros [_ _ _ _ H5] [_ _ P3]. split; auto. Qed.

(** C1 (as amended). For every resource [r] wrapped by [DefaultRc.New],
    with or without a dispose callback, and every finite sequence of
    [clone()] and [dispose()] calls on its handles (and of calls of
    dispose functions a callback kept): [r.dispose()] is invoked at most
    once, and only once the number of [dispose()] calls made on
    not-yet-disposed handles equals the number of handles created. When
    no dispose callback was given it is invoked exactly once as soon as
    the two numbers are equal, and not before. *)
Theorem rc_target_disposed_once (r : T) (cb : option RcDisposeCallback) ops :
  let w := run ops (New r cb) in
  (targetDisposals w ≤ 1)%nat
  ∧ (targetDisposals w = 1%nat → effectiveDisposes w = handlesCreated w)
  ∧ (cb = None →
     targetDisposals w =
       if decide (effectiveDisposes w = handlesCreated w) then 1%nat else 0%nat).
Proof.
  intros w. pose proof (Inv_reachable r cb ops) as HI. fold w in HI.
  split; [by apply Inv_at_most_once|].
  split; [by apply Inv_only_after|].
  intros ->.
  destruct (Inv_Plain_run ops (New r None) (Inv_New r None) (Plain_New r)) as [_ HP].
  fold w in HP. pose proof (Plain_gone_iff w HI HP) as Hiff.
  destruct HI as [H1 H2 H3 H4 H5]. rewrite H4.
  case_decide as Heq; destruct (ref (state w)) eqn:Hr; try done.
  - assert (count (state w) = 0) as Hz by lia. apply Hiff in Hz. done.
  - specialize (H5 eq_refl). lia.
Qed.

(** C3 (as amended). In every state reachable from [New] by [clone],
    [dispose] and calls of kept dispose functions: the stored target is
    non-empty whenever the live count is greater than 0; for a counter
    created without a dispose callback it is non-empty exactly when the
    count is greater than 0; and once the target is cleared it stays
    cleared whatever is done next. *)
Theorem rc_state_invariant (r : T) (cb : option RcDisposeCallback) ops :
  let w := run ops (New r cb) in
  (0 < count (state w) → ref (state w) ≠ None)
  ∧ (cb = None → (ref (state w) ≠ None ↔ 0 < count (state w)))
  ∧ (ref (state w) = None → ∀ more, ref (state (run more w)) = None).
Proof.
  intros w. pose proof (Inv_reachable r cb ops) as HI. fold w in HI.
  split; [|split].
  - intros Hc Hr. apply (inv_gone w HI) in Hr. lia.
  - intros ->.
    destruct (Inv_Plain_run ops (New r None) (Inv_New r None) (Plain_New r)) as [_ HP].
    fold w in HP. pose proof (Plain_gone_iff w HI HP) as Hiff.
    pose proof (Inv_count_nonneg w HI) as Hnn.
    split.
    + intros Hr. destruct (decide (count (state w) = 0)) as [Hz|Hz]; [|lia].
      apply Hiff in Hz. done.
    + intros Hc Hr. apply Hiff in Hr. lia.
  - intros Hr more. by apply run_ref_gone.
Qed.

End RcTheory.

(** C1, counterexample to the claim as it was stated: with a dispose
    callback that drops [dispose], one [dispose()] on the only handle makes
    the number of effective disposes equal to the number of handles, and the
    resource is not disposed. *)
Lemma rc_callback_can_withhold_disposal :
  let w := Rc.run [Rc.OpDispose 0] (Rc.New 7%nat (Some ignoringCallback)) in
  Rc.effectiveDisposes w = Rc.handlesCreated w ∧ Rc.targetDisposals w = 0%nat.
Proof. vm_compute. done. Qed.

Lemma rc_target_disposed_once_witness :
  Rc.targetDisposals
    (Rc.run [Rc.OpClone 0; Rc.OpDispose 0; Rc.OpDispose 0; Rc.OpDispose 1]
       (Rc.New 7%nat None)) = 1%nat.
Proof.
  pose proof (rc_target_disposed_once 7%nat None
                [Rc.OpClone 0; Rc.OpDispose 0; Rc.OpDispose 0; Rc.OpDispose 1]) as H.
  cbv zeta in H. destruct H as (_ & _ & H).
  rewrite (H eq_refl). by vm_compute.
Defined.

(** C3, counterexample to the claim as it was stated: after the last handle
    of a counter with a deferring dispose callback is disposed, the count is
    0 and the target is still stored. *)
Lemma rc_target_kept_at_count_zero :
  let w := Rc.run [Rc.OpDispose 0] (Rc.New 7%nat (Some debounceCallback)) in
  Rc.ref (Rc.state w) = Some 7%nat ∧ Rc.count (Rc.state w) = 0.
Proof. vm_compute. done. Qed.

Lemma rc_state_invariant_witness :
  Rc.ref (Rc.state (Rc.run [Rc.OpClone 0; Rc.OpDispose 1] (Rc.New 7%nat None))) ≠ None.
Proof.
  pose proof (rc_state_invariant 7%nat None [Rc.OpClone 0; Rc.OpDispose 1]) as H.
  cbv zeta in H. destruct H as (H & _ & _).
  apply H. by vm_compute.
Defined.


(** ** Service lookup *)

Section ServiceProviderTheory.

Import ServiceProvider.

Implicit Types (cs : list ServiceContribution) (serviceId : string) (params : JsValue).

Lemma getServiceFrom_result cs serviceId params :
  match (getServiceFrom cs serviceId params).2 with
  | inl result =>
      ∃ before contribution after,
        cs = before ++ contribution :: after
        ∧ Forall (λ c, offers c serviceId params = None) before
        ∧ offers contribution serviceId params = Some (service result)
  | inr thrown =>
      Forall (λ c, offers c serviceId params = None) cs
      ∧ thrown = noServiceFound serviceId
  end.
Proof.
  induction cs as [|c cs IH]; simpl; [by split|].
  assert (Hskip : offers c serviceId params = None →
    match (getServiceFrom cs serviceId params).2 with
    | inl result =>
        ∃ before contribution after,
          c :: cs = before ++ contribution :: after
          ∧ Forall (λ c, offers c serviceId params = None) before
          ∧ offers contribution serviceId params = Some (service result)
    | inr thrown =>
        Forall (λ c, offers c serviceId params = None) (c :: cs)
        ∧ thrown = noServiceFound serviceId
    end).
  { intros Hnone. destruct (getServiceFrom cs serviceId params).2 as [result|thrown].
    - destruct IH as (before & contribution & after & -> & Hall & Hoff).
      exists (c :: before), contribution, after. split_and!; [done| |done].
      by constructor.
    - destruct IH as [Hall ->]. split; [by constructor | done]. }
  unfold offers in Hskip |- *.
  destruct (callContribution c serviceId params newServiceLifecycleImpl)
    as [[v|e]|] eqn:Hcall; simpl; try (by apply Hskip).
  destruct (truthy v) eqn:Hv; simpl; [|by apply Hskip].
  exists [], c, cs. split_and!; [done | by constructor |].
  unfold offers. by rewrite Hcall, Hv.
Qed.

(** C4 (as amended). [getService(serviceId, params)] tries the
    contributions in registration order; the first one that returns a
    truthy value (one passing [if (service)]), rather than throwing or
    returning a falsy one, determines the result; when none does, the call
    throws the error with message [no service found for "<serviceId>"]. *)
Theorem getService_first_truthy (self : DefaultServiceProvider) serviceId params :
  match (getService self serviceId params).2 with
  | inl result =>
      ∃ before contribution after,
        serviceContributions self = before ++ contribution :: after
        ∧ Forall (λ c, offers c serviceId params = None) before
        ∧ offers contribution serviceId params = Some (service result)
  | inr thrown =>
      Forall (λ c, offers c serviceId params = None) (serviceContributions self)
      ∧ thrown = Error ("no service found for " +:+ dquote +:+ serviceId +:+ dquote)
  end.
Proof. apply getServiceFrom_result. Qed.

End ServiceProviderTheory.

(** C4, counterexample to the claim as it was stated: the first contribution
    returns a defined value, [0], and the result is the service of the
    second. *)
Lemma getService_passes_over_defined_falsy :
  ServiceProvider.returnsDefined zeroContribution "X" (JsRecord ∅) = Some (JsNumber 0)
  ∧ ∃ result,
      (ServiceProvider.getService
         {| ServiceProvider.serviceContributions := [zeroContribution; objectContribution 1] |}
         "X" (JsRecord ∅)).2 = inl result
      ∧ ServiceProvider.service result = JsObject 1
      ∧ ServiceProvider.service result ≠ JsNumber 0.
Proof. split; [reflexivity|]. eexists. split; [reflexivity|]. by split. Qed.

(** C2, the code at the failing input: the tracked disposable is returned as
    the service, and the release function leaves the set of disposed
    objects as it was; the disposable is not disposed by it. *)
Lemma getService_release_disposes_nothing :
  ∃ result,
    (ServiceProvider.getService
       {| ServiceProvider.serviceContributions := [trackingContribution 5] |}
       "/services/terminals" (JsRecord ∅)).2 = inl result
    ∧ ServiceProvider.service result = JsObject 5
    ∧ ∀ disposedObjects : gset nat,
        ServiceProvider.release result disposedObjects = disposedObjects
        ∧ (5%nat ∉ disposedObjects → 5%nat ∉ ServiceProvider.release result disposedObjects).
Proof. eexists. split; [by vm_compute|]. split; [done|]. intros D. by split. Qed.

(** ** The RPC proxy *)

Section RpcProxyTheory.

Import RpcProxy.

Variable isEventName : string → bool.

Implicit Types (h : RpcProxyHandler) (property : string + nat) (ops : list Op).

Lemma CacheInv_new c : CacheInv isEventName (newRpcProxyHandler c).
Proof.
  split; simpl; [done|].
  intros name m Hm Hne _. rewrite lookup_singleton_ne in Hm; [done | congruence].
Qed.

Lemma CacheInv_get property h : CacheInv isEventName h → CacheInv isEventName (get isEventName property h).1.
Proof.
  intros HI. pose proof HI as [H1 H2]. unfold get.
  destruct (disposed h) eqn:Hd; [exact HI|].
  destruct property as [name|sym]; [|exact HI].
  destruct (cache h !! inl name) as [m|] eqn:Hc; [exact HI|].
  assert (Hne : name ≠ "dispose").
  { intros ->. rewrite (H1 eq_refl) in Hc. done. }
  destruct (isEventName name) eqn:He; split; simpl.
  - intros _. rewrite lookup_insert_ne; [auto | congruence].
  - intros p m Hm Hp Hev. destruct (decide (p = name)) as [->|Hpn]; [congruence|].
    rewrite lookup_insert_ne in Hm; [eauto | congruence].
  - intros _. rewrite lookup_insert_ne; [auto | congruence].
  - intros p m Hm Hp Hev. destruct (decide (p = name)) as [->|Hpn].
    + rewrite lookup_insert_eq in Hm. injection Hm as <-. eauto.
    + rewrite lookup_insert_ne in Hm; [eauto | congruence].
Qed.

Lemma CacheInv_call m args h : CacheInv isEventName h → CacheInv isEventName (call m args h).1.
Proof.
  intros HI. pose proof HI as [H1 H2].
  destruct m as [|e|id name]; simpl; [|exact HI|by split].
  destruct (disposed h) eqn:Hd; simpl; [exact HI|].
  by split.
Qed.

Lemma CacheInv_step h op : CacheInv isEventName h → CacheInv isEventName (step isEventName h op).
Proof.
  intros HI. destruct op as [property|m args| |eventName params]; simpl.
  - by apply CacheInv_get.
  - by apply CacheInv_call.
  - by split.
  - unfold onNotification. destruct (emitters h !! eventName); [|done].
    destruct HI as [H1 H2]. by split.
Qed.

Lemma CacheInv_run ops h : CacheInv isEventName h → CacheInv isEventName (run isEventName ops h).
Proof.
  revert h. induction ops as [|op ops IH]; intros h HI; simpl; [done|].
  by apply IH, CacheInv_step.
Qed.

(** Nothing resets [disposed]. *)
Lemma disposed_step h op : disposed h = true → disposed (step isEventName h op) = true.
Proof.
  intros Hd. destruct op as [property|m args| |eventName params]; simpl.
  - unfold get. by rewrite Hd.
  - destruct m; simpl; [by rewrite Hd | done | done].
  - done.
  - unfold onNotification. by destruct (emitters h !! eventName).
Qed.

Lemma disposed_run ops h : disposed h = true → disposed (run isEventName ops h) = true.
Proof.
  revert h. induction ops as [|op ops IH]; intros h Hd; simpl; [done|].
  by apply IH, disposed_step.
Qed.

Lemma get_disposed property h :
  disposed h = true → get isEventName property h = (h, inr invalidProxy).
Proof. intros Hd. unfold get. by rewrite Hd. Qed.

Lemma proxyDispose_disposed h : CacheInv isEventName h → disposed (proxyDispose isEventName h) = true.
Proof.
  intros [H1 _]. unfold proxyDispose, get.
  destruct (disposed h) eqn:Hd; [done|].
  rewrite (H1 eq_refl). simpl. by rewrite Hd.
Qed.

(** C6. On a proxy that is not disposed, for a property name that is not
    an event name (and not 'dispose'), such as [foo]: reading the property
    yields a request function for that name and leaves the connection
    untouched; reading it again yields the identical function object, from
    the cache, without allocating; calling the function with arguments
    [args], such as [(1, 2)], sends exactly one request, with that method
    name and those arguments, and returns a promise that settles with the
    response to that request. *)
Theorem proxy_call_sends_one_request
    (c : RpcConnection) ops (name : string) (args : list JsValue) :
  let h := run isEventName ops (newRpcProxyHandler c) in
  disposed h = false →
  isEventName name = false →
  name ≠ "dispose" →
  ∃ (h1 : RpcProxyHandler) (id : nat),
    get isEventName (inl name) h = (h1, inl (RequestFn id name))
    ∧ rpcConnection h1 = rpcConnection h
    ∧ get isEventName (inl name) h1 = (h1, inl (RequestFn id name))
    ∧ ∃ h2,
        call (RequestFn id name) args h1
          = (h2, Some (ResponseOf (length (requests (rpcConnection h)))))
        ∧ requests (rpcConnection h2) = requests (rpcConnection h) ++ [(name, args)]
        ∧ closeCalls (rpcConnection h2) = closeCalls (rpcConnection h)
        ∧ ∀ responses,
            settles responses (ResponseOf (length (requests (rpcConnection h))))
              = responses (length (requests (rpcConnection h))).
Proof.
  intros h Hd Hev Hne.
  assert (HI : CacheInv isEventName h) by apply CacheInv_run, CacheInv_new.
  assert (Hget : ∃ h1 id,
    get isEventName (inl name) h = (h1, inl (RequestFn id name))
    ∧ rpcConnection h1 = rpcConnection h
    ∧ disposed h1 = false
    ∧ cache h1 !! inl name = Some (RequestFn id name)).
  { unfold get. rewrite Hd.
    destruct (cache h !! inl name) as [m|] eqn:Hc.
    - destruct (cache_request isEventName h HI name m Hc Hne Hev) as [id ->]. by exists h, id.
    - rewrite Hev. eexists _, _. split; [done|]. simpl.
      split_and!; [done | done | by rewrite lookup_insert_eq]. }
  destruct Hget as (h1 & id & Hg & Hconn & Hd1 & Hc1).
  exists h1, id. split_and!; [done | done | |].
  - unfold get. by rewrite Hd1, Hc1.
  - eexists. unfold call, sendRequest. rewrite Hconn. by split_and!.
Qed.

(** C7. Once the connection of a proxy has reported closed, or
    [proxy.dispose()] was called, every later property access on the
    proxy, whatever happened in between, throws the error
    'this instance is no longer valid!'. *)
Theorem proxy_invalid_after_close (c : RpcConnection) (before ops : list Op) property :
  let h := run isEventName before (newRpcProxyHandler c) in
  (get isEventName property (run isEventName ops (step isEventName h OpConnectionClosed))).2
    = inr invalidProxy
  ∧ (get isEventName property (run isEventName ops (proxyDispose isEventName h))).2
    = inr invalidProxy.
Proof.
  intros h.
  assert (HI : CacheInv isEventName h) by apply CacheInv_run, CacheInv_new.
  split; rewrite get_disposed; try done; apply disposed_run.
  - done.
  - by apply proxyDispose_disposed.
Qed.

(** C10. On a proxy that is not disposed, a property access with a key
    that is not a string (a symbol) throws the error
    'you can only index this proxy with strings' and returns neither a
    function nor an event; the handler is left as it was. *)
Theorem proxy_symbol_key_throws h (symbol : nat) :
  disposed h = false →
  get isEventName (inr symbol) h = (h, inr stringsOnly).
Proof. intros Hd. unfold get. by rewrite Hd. Qed.

End RpcProxyTheory.

Lemma proxy_call_sends_one_request_witness :
  ∃ h1 id h2 p,
    RpcProxy.get onCapital (inl "foo") (RpcProxy.newRpcProxyHandler emptyConnection)
      = (h1, inl (RpcProxy.RequestFn id "foo"))
    ∧ RpcProxy.get onCapital (inl "foo") h1 = (h1, inl (RpcProxy.RequestFn id "foo"))
    ∧ RpcProxy.call (RpcProxy.RequestFn id "foo") [JsNumber 1; JsNumber 2] h1 = (h2, Some p)
    ∧ RpcProxy.requests (RpcProxy.rpcConnection h2) = [("foo", [JsNumber 1; JsNumber 2])].
Proof.
  destruct (proxy_call_sends_one_request onCapital emptyConnection [] "foo"
              [JsNumber 1; JsNumber 2])
    as (h1 & id & Hg & _ & Hg2 & h2 & Hcall & Hreq & _); [done | done | done |].
  exists h1, id, h2, (RpcProxy.ResponseOf 0). by split_and!.
Defined.

Lemma proxy_symbol_key_throws_witness :
  RpcProxy.get onCapital (inr 3%nat) (RpcProxy.newRpcProxyHandler emptyConnection)
    = (RpcProxy.newRpcProxyHandler emptyConnection, inr RpcProxy.stringsOnly).
Proof. apply (proxy_symbol_key_throws onCapital); reflexivity. Defined.

(** ** Route handlers *)

Section RouteHandlerTheory.

Import RouteHandler.

Variable Route : string → string → option (gmap string string).
Context {Accept Result : Type}.

Implicit Types (params : gmap string JsValue) (accept : Accept)
  (next : option Thrown → Result).

Lemma routeParam_routeRecord params spec (m : gmap string string) name :
  routeParam (<["route" := routeRecord spec m]> params) name = JsString <$> m !! name.
Proof.
  unfold routeParam, routeRecord. rewrite lookup_insert_eq.
  rewrite lookup_insert_ne; [|done]. rewrite lookup_singleton_eq.
  by rewrite lookup_fmap.
Qed.

(** C8. The handler made by [createRouteHandler(spec, handler)], applied
    to inbound params: without a string [path], or with a path the
    pattern does not match, it calls [next()] with no error; with a path
    the pattern matches it calls the wrapped handler, with the same
    [accept] and [next], on the inbound params extended by [route], whose
    [spec] is the pattern and whose [params] bind every named segment the
    match extracted. *)
Theorem createRouteHandler_dispatch
    (spec : string) (handler : gmap string JsValue → Accept → (option Thrown → Result) → Result)
    params accept next :
  ((∀ path, params !! "path" ≠ Some (JsString path)) →
     createRouteHandler Route spec handler params accept next = next None)
  ∧ (∀ path, params !! "path" = Some (JsString path) → Route spec path = None →
       createRouteHandler Route spec handler params accept next = next None)
  ∧ (∀ path segments,
       params !! "path" = Some (JsString path) → Route spec path = Some segments →
       ∃ routed,
         createRouteHandler Route spec handler params accept next
           = handler routed accept next
         ∧ (∀ key, key ≠ "route" → routed !! key = params !! key)
         ∧ routeSpec routed = Some (JsString spec)
         ∧ ∀ name, routeParam routed name = JsString <$> segments !! name).
Proof.
  unfold createRouteHandler, paramsContainsPath. split_and!.
  - intros Hno. destruct (params !! "path") as [[]|] eqn:Hp; try done.
    by destruct (Hno s).
  - intros path -> ->. done.
  - intros path segments -> ->. eexists. split_and!; [done | | |].
    + intros key Hk. by rewrite lookup_insert_ne.
    + unfold routeSpec, routeRecord. rewrite lookup_insert_eq.
      by rewrite lookup_insert_eq.
    + intros name. apply routeParam_routeRecord.
Qed.

End RouteHandlerTheory.

Lemma createRouteHandler_dispatch_witness :
  RouteHandler.createRouteHandler SegmentRoute.Route "/services/:serviceId"
    (λ params accept _, Handled (RouteHandler.routeParam params "serviceId") accept)
    {[ "path" := JsString "/services/terminal" ]} 7%nat Declined
  = Handled (Some (JsString "terminal")) 7%nat
  ∧ RouteHandler.createRouteHandler SegmentRoute.Route "/services/:serviceId"
      (λ params accept _, Handled (RouteHandler.routeParam params "serviceId") accept)
      {[ "path" := JsString "/other" ]} 7%nat Declined
    = Declined None.
Proof.
  pose proof (createRouteHandler_dispatch SegmentRoute.Route "/services/:serviceId"
                (λ params accept _, Handled (RouteHandler.routeParam params "serviceId") accept)
                {[ "path" := JsString "/services/terminal" ]} 7%nat Declined)
    as (_ & _ & Hmatch).
  pose proof (createRouteHandler_dispatch SegmentRoute.Route "/services/:serviceId"
                (λ params accept _, Handled (RouteHandler.routeParam params "serviceId") accept)
                {[ "path" := JsString "/other" ]} 7%nat Declined)
    as (_ & Hmiss & _).
  split.
  - destruct (Hmatch "/services/terminal" {[ "serviceId" := "terminal" ]})
      as (routed & Hcall & _ & _ & Hseg); [by vm_compute | by vm_compute |].
    etrans; [exact Hcall|]. by rewrite Hseg.
  - apply (Hmiss "/other"); by vm_compute.
Defined.

(** ** The single-use backend-proxying route *)

Section BackendProxyingTheory.

Import BackendProxying.

Variable Route : string → string → option (gmap string string).
Context {Connection : Type}.

Implicit Types (self : @FrontendServiceConnectionProvider Connection)
  (incoming : list (JsValue * Connection)).

Lemma connectionHandler_off_route self path (accept : Connection) :
  onRoute Route path = false →
  connectionHandler Route self path accept = (self, CalledNext None).
Proof.
  unfold onRoute, connectionHandler. destruct path; try done.
  intros Hoff. apply bool_decide_eq_false in Hoff.
  destruct (BACKEND_PROXYING_ROUTE Route s); [|done].
  destruct Hoff. by eexists.
Qed.

Lemma connectionHandler_on_route self path (accept : Connection) :
  onRoute Route path = true →
  connectionHandler Route self path accept =
    match state (deferredConnection self) with
    | unresolved =>
        ({| deferredConnection := resolve (deferredConnection self) accept |},
         Accepted accept)
    | _ => (self, CalledNext (Some invalidConnection))
    end.
Proof.
  unfold onRoute, connectionHandler. destruct path; try done.
  intros Hon. apply bool_decide_eq_true in Hon as [m Hm]. by rewrite Hm.
Qed.

Lemma serve_settled self incoming :
  state (deferredConnection self) ≠ unresolved →
  serve Route self incoming = (self, afterFirst Route <$> incoming).
Proof.
  intros Hs. induction incoming as [|[path accept] rest IH]; simpl; [done|].
  destruct (onRoute Route path) eqn:Hon.
  - rewrite connectionHandler_on_route by done.
    destruct (state (deferredConnection self)) eqn:Hst; [done| |];
      rewrite IH; unfold afterFirst; simpl; by rewrite Hon.
  - rewrite connectionHandler_off_route by done.
    rewrite IH. unfold afterFirst; simpl. by rewrite Hon.
Qed.

(** C9. Of the connections arriving one after the other at a fresh
    provider, the first whose path is on the backend-proxying route is
    accepted and resolves the deferred connection with it; the ones
    before it are passed on with [next()]; every later one on the route
    is not accepted: it is passed on with [next(new Error('invalid
    connection'))], and the deferred connection keeps the first. *)
Theorem backend_proxying_single_use
    (before after : list (JsValue * Connection)) (path : JsValue) (connection : Connection) :
  Forall (λ x, onRoute Route x.1 = false) before →
  onRoute Route path = true →
  serve Route newFrontendServiceConnectionProvider (before ++ (path, connection) :: after)
  = ({| deferredConnection := {| state := resolved; value := Some connection |} |},
     ((λ _, CalledNext None) <$> before)
       ++ Accepted connection
       :: ((λ x, CalledNext (if onRoute Route x.1 then Some invalidConnection else None))
             <$> after)).
Proof.
  intros Hbefore Hon.
  induction Hbefore as [|[p c] rest Hoff _ IH]; simpl.
  - rewrite connectionHandler_on_route by done. simpl.
    rewrite serve_settled by done. done.
  - simpl in Hoff. rewrite connectionHandler_off_route by done.
    by rewrite IH.
Qed.

End BackendProxyingTheory.

Lemma backend_proxying_single_use_witness :
  BackendProxying.serve SegmentRoute.Route
    BackendProxying.newFrontendServiceConnectionProvider
    [(JsString "/services/x", 1%nat); (JsString "/backend-proxying/", 2%nat);
     (JsUndefined, 3%nat); (JsString "/backend-proxying/", 4%nat)]
  = ({| BackendProxying.deferredConnection :=
          {| BackendProxying.state := BackendProxying.resolved;
             BackendProxying.value := Some 2%nat |} |},
     [BackendProxying.CalledNext None; BackendProxying.Accepted 2%nat;
      BackendProxying.CalledNext None;
      BackendProxying.CalledNext (Some BackendProxying.invalidConnection)]).
Proof.
  etrans.
  - apply (backend_proxying_single_use SegmentRoute.Route
             [(JsString "/services/x", 1%nat)]
             [(JsUndefined, 3%nat); (JsString "/backend-proxying/", 4%nat)]
             (JsString "/backend-proxying/") 2%nat).
    + constructor; [by vm_compute | constructor].
    + by vm_compute.
  - by vm_compute.
Defined.

(** * Further properties of the code *)

(** ** The reference counter *)

Lemma setFlags_unset (l : list bool) :
  length l = (setFlags l + length (filter (λ d, d = false) l))%nat.
Proof.
  induction l as [|b l IH]; [done|].
  unfold setFlags in *. rewrite tally_cons.
  destruct b; simpl.
  - rewrite (filter_cons_False (λ d, d = false)) by done. lia.
  - lia.
Qed.

Lemma setFlags_all (l : list bool) (h : nat) (b : bool) :
  setFlags l = length l → l !! h = Some b → b = true.
Proof.
  intros Hall Hh. destruct b; [done|].
  pose proof (setFlags_lt l h Hh). lia.
Qed.

Section RcFurther.

Context {T : Type}.
Import Rc.

Implicit Types (w : World T) (h : nat) (ops : list Op) (r : T).

Ltac obs :=
  unfold handlesCreated, effectiveDisposes, targetDisposals, reviveCalls in *;
  simpl in *;
  rewrite ?tally_app, ?tally_cons, ?tally_nil in *; simpl in *.

(** *** Frame lemmas: what the parts of [dispose] leave alone *)

Lemma disposeRef_frame w :
  handles (disposeRef w).1 = handles w
  ∧ count (state (disposeRef w).1) = count (state w)
  ∧ reviveCallback (state (disposeRef w).1) = reviveCallback (state w)
  ∧ callbackRuns (disposeRef w).1 = callbackRuns w
  ∧ heldDisposers (disposeRef w).1 = heldDisposers w.
Proof. unfold disposeRef. by destruct (ref (state w)). Qed.

Lemma disposer_frame w :
  handles (disposer w).1 = handles w
  ∧ count (state (disposer w).1) = count (state w)
  ∧ reviveCallback (state (disposer w).1) = reviveCallback (state w)
  ∧ callbackRuns (disposer w).1 = callbackRuns w
  ∧ heldDisposers (disposer w).1 = heldDisposers w.
Proof.
  unfold disposer. destruct (count (state w) =? 0); [apply disposeRef_frame | done].
Qed.

Lemma runDisposeCallback_handles cb w :
  handles (runDisposeCallback cb w).1 = handles w.
Proof.
  unfold runDisposeCallback.
  set (w1 := Build_World _ _ _ _ _).
  destruct (callsDisposeNow (cb (callbackRuns w))).
  - pose proof (disposer_frame w1) as (Hh & _).
    destruct (disposer w1) as [w2 [e|]]; simpl in *; [done|].
    by destruct (returnsRevive (cb (callbackRuns w))).
  - by destruct (returnsRevive (cb (callbackRuns w))).
Qed.

Lemma dispose_marks w h :
  is_Some (handles w !! h) → handles (dispose h w).1 !! h = Some true.
Proof.
  intros [b Hh]. unfold dispose. rewrite Hh. destruct b; [done|].
  assert (Hlt : (h < length (handles w))%nat) by (by eapply lookup_lt_Some).
  set (w2 := setState _ _).
  assert (H2 : handles w2 !! h = Some true).
  { subst w2. simpl. by apply list_lookup_insert_eq. }
  destruct (count (state w2) =? 0); [|done].
  destruct (disposeCallback (state w2)).
  - by rewrite runDisposeCallback_handles.
  - by destruct (disposeRef_frame w2) as (-> & _).
Qed.

(** X2. [dispose()] is idempotent per handle: a second [dispose()] on the
    same handle leaves a [console.trace] and changes nothing else (the
    count is not decremented again and nothing is disposed). *)
Theorem rc_dispose_twice w h :
  is_Some (handles w !! h) →
  dispose h (dispose h w).1
  = (log (dispose h w).1 [ConsoleTrace RC_DISPOSED], None).
Proof.
  intros Hh. pose proof (dispose_marks w h Hh) as Hm.
  unfold dispose at 1. by rewrite Hm.
Qed.

(** X1. In every reachable state the count is the number of handles
    created minus the number of effective disposes, which is the number of
    handles whose own [disposed] flag is still unset; it never goes below
    zero. *)
Theorem rc_count_is_live_handles r (cb : option RcDisposeCallback) ops :
  let w := run ops (New r cb) in
  count (state w) = Z.of_nat (handlesCreated w) - Z.of_nat (effectiveDisposes w)
  ∧ count (state w) = Z.of_nat (length (filter (λ d, d = false) (handles w)))
  ∧ 0 ≤ count (state w).
Proof.
  intros w. pose proof (Inv_reachable r cb ops) as [H1 H2 H3 H4 H5]. fold w in H1, H2, H3.
  pose proof (setFlags_unset (handles w)). rewrite H1, H2, H3. lia.
Qed.


(** *** The shape of the trace *)

Lemma TraceShape_ext r w w' es :
  TraceShape r w →
  ref (state w') = ref (state w) →
  trace w' = trace w ++ es →
  tally isTargetDisposed es = 0%nat →
  TraceShape r w'.
Proof.
  unfold TraceShape. intros HS -> -> Hes.
  destruct (ref (state w)) as [r'|].
  - destruct HS as [-> Hz]. split; [done|]. rewrite tally_app. lia.
  - destruct HS as (before & after & -> & Hb & Ha).
    exists before, (after ++ es). split_and!; [|done|].
    + unfold disposal. by rewrite <- !app_assoc.
    + rewrite tally_app. lia.
Qed.

Lemma TraceShape_New r cb : TraceShape r (New r cb).
Proof. unfold TraceShape. simpl. split; [done|]. by rewrite tally_cons. Qed.

Lemma TraceShape_construct r w : TraceShape r w → TraceShape r (construct w).
Proof.
  intros HS. unfold construct.
  destruct (reviveCallback (setCount (state w) (count (state w) + 1))) as [f|] eqn:Hf.
  - destruct (count (setCount (state w) (count (state w) + 1)) =? 1).
    + apply (TraceShape_ext r w _ [ReviveCalled f; Constructed (length (handles w))]);
        [done | done | simpl; by rewrite <- app_assoc | by rewrite !tally_cons].
    + apply (TraceShape_ext r w _ [Constructed (length (handles w))]);
        [done | done | done | by rewrite !tally_cons].
  - apply (TraceShape_ext r w _ [Constructed (length (handles w))]);
      [done | done | done | by rewrite !tally_cons].
Qed.

Lemma TraceShape_disposeRef r w : TraceShape r w → TraceShape r (disposeRef w).1.
Proof.
  intros HS. unfold disposeRef.
  destruct (ref (state w)) as [r'|] eqn:Hr.
  - unfold TraceShape in *. rewrite Hr in HS. destruct HS as [-> Hz]. simpl.
    exists (trace w), []. split_and!; [|done|done].
    unfold disposal. by rewrite <- !app_assoc.
  - apply (TraceShape_ext r w _ [WillDisposeFired None; EmitterDisposed]);
      [done | done | done | by rewrite !tally_cons].
Qed.

Lemma TraceShape_disposer r w : TraceShape r w → TraceShape r (disposer w).1.
Proof.
  intros HS. unfold disposer.
  destruct (count (state w) =? 0); [by apply TraceShape_disposeRef | done].
Qed.

Lemma TraceShape_runDisposeCallback r cb w :
  TraceShape r w → TraceShape r (runDisposeCallback cb w).1.
Proof.
  intros HS. unfold runDisposeCallback.
  set (w1 := Build_World _ _ _ _ _).
  assert (HS1 : TraceShape r w1).
  { apply (TraceShape_ext r w _ [CallbackCalled (callbackRuns w)]);
      [done | done | done | by rewrite !tally_cons]. }
  assert (Hquiet : ∀ w2 w3, TraceShape r w2 →
            ref (state w3) = ref (state w2) → trace w3 = trace w2 → TraceShape r w3).
  { intros w2 w3 H2 Er Et. apply (TraceShape_ext r w2 w3 []); [done | done | | done].
    by rewrite app_nil_r. }
  destruct (callsDisposeNow (cb (callbackRuns w))).
  - pose proof (TraceShape_disposer r w1 HS1) as HS2.
    destruct (disposer w1) as [w2 [e|]]; simpl in HS2 |- *; [done|].
    destruct (returnsRevive (cb (callbackRuns w))); simpl; by eapply Hquiet.
  - destruct (returnsRevive (cb (callbackRuns w))); simpl; by eapply Hquiet.
Qed.

Lemma TraceShape_step r w op : TraceShape r w → TraceShape r (step w op).
Proof.
  intros HS. destruct op as [h|h|]; simpl.
  - unfold clone. destruct (handles w !! h); [|done].
    destruct (isRefDisposed w); [done | by apply TraceShape_construct].
  - unfold dispose. destruct (handles w !! h) as [[|]|]; [| |done].
    + apply (TraceShape_ext r w _ [ConsoleTrace RC_DISPOSED]);
        [done | done | done | by rewrite !tally_cons].
    + set (w2 := setState _ _).
      assert (HS2 : TraceShape r w2).
      { apply (TraceShape_ext r w _ [Decremented h]);
          [done | done | done | by rewrite !tally_cons]. }
      destruct (count (state w2) =? 0); [|done].
      destruct (disposeCallback (state w2)).
      * by apply TraceShape_runDisposeCallback.
      * by apply TraceShape_disposeRef.
  - unfold invokeDeferred. destruct (heldDisposers w); [done|].
    by apply TraceShape_disposer.
Qed.

Lemma TraceShape_reachable r cb ops : TraceShape r (run ops (New r cb)).
Proof.
  unfold run. generalize (TraceShape_New r cb). generalize (New r cb).
  induction ops as [|op ops IH]; intros w HS; simpl; [done|].
  by apply IH, TraceShape_step.
Qed.

(** X5. When the target was disposed, the trace holds, once and next to
    each other, the [onWillDisposeRef] event fired with the target, the
    disposal of the emitter and the call of [dispose()] on the target; the
    target is the resource given to [New], and nothing else in the trace
    disposes a target. *)
Theorem rc_will_dispose_fires_just_before r (cb : option RcDisposeCallback) ops :
  let w := run ops (New r cb) in
  targetDisposals w = 1%nat →
  ∃ before after,
    trace w = before ++ [WillDisposeFired (Some r); EmitterDisposed; TargetDisposed r] ++ after
    ∧ tally isTargetDisposed before = 0%nat
    ∧ tally isTargetDisposed after = 0%nat.
Proof.
  intros w Hd.
  pose proof (TraceShape_reachable r cb ops) as HS. fold w in HS.
  unfold TraceShape in HS. destruct (ref (state w)) as [r'|]; [|done].
  destruct HS as [_ Hz]. unfold targetDisposals in Hd. lia.
Qed.

(** X3. In a reachable state, [ref()] on any handle, also one that was
    itself disposed, returns the resource that was given to [New] as long
    as the count is above zero; once the target is gone, [ref()] and
    [clone()] both throw 'the underlying reference is disposed'. *)
Theorem rc_ref_returns_the_resource r (cb : option RcDisposeCallback) ops h :
  let w := run ops (New r cb) in
  is_Some (handles w !! h) →
  (0 < count (state w) → (refOf h w).2 = Some (inl r))
  ∧ (ref (state w) = None →
     (refOf h w).2 = Some (inr (Error (message REF_DISPOSED)))
     ∧ (clone h w).2 = Some (Error (message REF_DISPOSED))).
Proof.
  intros w [b Hh].
  pose proof (TraceShape_reachable r cb ops) as HS. fold w in HS.
  pose proof (Inv_reachable r cb ops) as HI. fold w in HI.
  unfold refOf, clone, isRefDisposed. rewrite Hh. split.
  - intros Hc. unfold TraceShape in HS.
    destruct (ref (state w)) as [r'|] eqn:Hr.
    + by destruct HS as [-> _].
    + pose proof (inv_gone w HI Hr). lia.
  - by intros ->.
Qed.

(** X9. While the count is above zero, [clone()] succeeds on every
    handle, also on one that was itself disposed: it creates the next
    handle, not disposed, and raises the count by one. *)
Theorem rc_clone_succeeds_while_alive r (cb : option RcDisposeCallback) ops h :
  let w := run ops (New r cb) in
  is_Some (handles w !! h) →
  0 < count (state w) →
  (clone h w).2 = None
  ∧ count (state (clone h w).1) = count (state w) + 1
  ∧ handles (clone h w).1 = handles w ++ [false].
Proof.
  intros w [b Hh] Hc.
  pose proof (Inv_reachable r cb ops) as HI. fold w in HI.
  unfold clone, isRefDisposed. rewrite Hh.
  destruct (ref (state w)) as [r'|] eqn:Hr.
  - simpl. unfold construct. simpl.
    destruct (reviveCallback (state w)); [destruct (count (state w) + 1 =? 1)|]; done.
  - pose proof (inv_gone w HI Hr). lia.
Qed.

(** X4. Once the target is gone the counter is dead: whatever is called
    next, no handle is created, no dispose is effective, the count stays
    0 and the target is not disposed again. *)
Theorem rc_dead_after_disposal r (cb : option RcDisposeCallback) ops more :
  let w := run ops (New r cb) in
  ref (state w) = None →
  let w' := run more w in
  handlesCreated w' = handlesCreated w
  ∧ effectiveDisposes w' = effectiveDisposes w
  ∧ count (state w') = 0
  ∧ targetDisposals w' = 1%nat.
Proof.
  intros w Hr w'.
  assert (HI : Inv w) by apply Inv_reachable.
  assert (HI' : Inv w') by (by apply Inv_run).
  assert (Hr' : ref (state w') = None) by (by apply run_ref_gone).
  assert (Hh : handles w' = handles w).
  { subst w'. clear HI'  Hr'. revert HI Hr. generalize w. clear w.
    induction more as [|op more IH]; intros w HI Hr; simpl; [done|].
    assert (Hstep : handles (step w op) = handles w).
    { pose proof (inv_gone w HI Hr) as Hz. pose proof (inv_count w HI) as Hc.
      assert (Hall : setFlags (handles w) = length (handles w)) by lia.
      destruct op as [h|h|]; simpl.
      - unfold clone, isRefDisposed. rewrite Hr. by destruct (handles w !! h).
      - unfold dispose. destruct (handles w !! h) as [b|] eqn:Hh; [|done].
        by rewrite (setFlags_all _ _ _ Hall Hh).
      - unfold invokeDeferred. destruct (heldDisposers w); [done|].
        by destruct (disposer_frame w) as (-> & _). }
    rewrite IH; [done | by apply Inv_step | by apply step_ref_gone]. }
  destruct HI as [H1 H2 H3 H4 H5], HI' as [H1' H2' H3' H4' H5'].
  rewrite H1', H2', H4', Hh, H1, H2, Hr'. auto.
Qed.

(** X6. A dispose function kept by the callback that is invoked when the
    target is already gone (a second time, say) throws a [TypeError]: it
    finds the count at 0 and calls [dispose] on the cleared target. The
    target is not disposed again; the state record is left as it is. *)
Theorem rc_deferred_dispose_after_disposal_throws r (cb : option RcDisposeCallback) ops :
  let w := run ops (New r cb) in
  ref (state w) = None →
  heldDisposers w ≠ 0%nat →
  (invokeDeferred w).2
    = Some (TypeError "Cannot read properties of undefined (reading 'dispose')")
  ∧ state (invokeDeferred w).1 = state w
  ∧ targetDisposals (invokeDeferred w).1 = targetDisposals w.
Proof.
  intros w Hr Hheld.
  assert (HI : Inv w) by apply Inv_reachable.
  pose proof (inv_gone w HI Hr) as Hz.
  unfold invokeDeferred. destruct (heldDisposers w); [done|].
  unfold disposer, disposeRef. rewrite Hz, Hr. cbn [fst snd Z.eqb].
  split_and!; [done | done |].
  unfold targetDisposals, log. cbn [trace].
  rewrite tally_app, !tally_cons, tally_nil. simpl. lia.
Qed.

(** *** Revive functions *)
















(** *** Releasing every reference *)







End RcFurther.




Lemma rc_dispose_twice_witness :
  Rc.dispose 0 (Rc.dispose 0 (Rc.New 7%nat None)).1
  = (Rc.log (Rc.dispose 0 (Rc.New 7%nat None)).1 [Rc.ConsoleTrace Rc.RC_DISPOSED], None).
Proof. apply rc_dispose_twice. by vm_compute; eexists. Defined.

Lemma rc_will_dispose_fires_just_before_witness :
  ∃ before after,
    Rc.trace (Rc.run [Rc.OpClone 0; Rc.OpDispose 1; Rc.OpDispose 0] (Rc.New 7%nat None))
    = before ++ [Rc.WillDisposeFired (Some 7%nat); Rc.EmitterDisposed; Rc.TargetDisposed 7%nat]
        ++ after.
Proof.
  destruct (rc_will_dispose_fires_just_before 7%nat None
              [Rc.OpClone 0; Rc.OpDispose 1; Rc.OpDispose 0])
    as (before & after & H & _); [by vm_compute|].
  by exists before, after.
Defined.

Lemma rc_ref_returns_the_resource_witness :
  (Rc.refOf 0 (Rc.run [Rc.OpClone 0; Rc.OpDispose 0] (Rc.New 7%nat None))).2
  = Some (inl 7%nat).
Proof.
  pose proof (rc_ref_returns_the_resource 7%nat None [Rc.OpClone 0; Rc.OpDispose 0] 0%nat) as H.
  cbv zeta in H. destruct H as [H _]; [by vm_compute; eexists|].
  apply H. by vm_compute.
Defined.

Lemma rc_dead_after_disposal_witness :
  Rc.handlesCreated
    (Rc.run [Rc.OpClone 0; Rc.OpDispose 0; Rc.OpInvokeDeferred]
       (Rc.run [Rc.OpDispose 0] (Rc.New 7%nat None)))
  = 1%nat.
Proof.
  pose proof (rc_dead_after_disposal 7%nat None [Rc.OpDispose 0]
                [Rc.OpClone 0; Rc.OpDispose 0; Rc.OpInvokeDeferred]) as H.
  cbv zeta in H. destruct H as (H & _); [by vm_compute|].
  rewrite H. by vm_compute.
Defined.

Lemma rc_deferred_dispose_after_disposal_throws_witness :
  (Rc.invokeDeferred
     (Rc.run [Rc.OpDispose 0; Rc.OpInvokeDeferred] (Rc.New 7%nat (Some debounceCallback)))).2
  = Some (TypeError "Cannot read properties of undefined (reading 'dispose')").
Proof.
  pose proof (rc_deferred_dispose_after_disposal_throws 7%nat (Some debounceCallback)
                [Rc.OpDispose 0; Rc.OpInvokeDeferred]) as H.
  cbv zeta in H. destruct H as (H & _); [by vm_compute | by vm_compute | exact H].
Defined.

(** ** Service lookup *)

Section ServiceProviderFurther.

Import ServiceProvider.

Implicit Types (cs : list ServiceContribution) (serviceId : string) (params : JsValue).

Lemma getServiceFrom_truthy cs serviceId params :
  match (getServiceFrom cs serviceId params).2 with
  | inl result => truthy (service result) = true
  | inr thrown => thrown = noServiceFound serviceId
  end.
Proof.
  induction cs as [|c cs IH]; simpl; [done|].
  destruct (callContribution c serviceId params newServiceLifecycleImpl) as [[v|e]|];
    simpl; try done.
  by destruct (truthy v) eqn:Hv.
Qed.

Lemma getServiceFrom_logs cs serviceId params :
  match getServiceFrom cs serviceId params with
  | (log, inl result) =>
      truthy (service result) = true
      ∧ ∃ before contribution after,
          cs = before ++ contribution :: after
          ∧ Forall (λ c, offers c serviceId params = None) before
          ∧ offers contribution serviceId params = Some (service result)
          ∧ log = flat_map (λ c, complaint c serviceId params) before
  | (log, inr thrown) =>
      thrown = noServiceFound serviceId
      ∧ log = flat_map (λ c, complaint c serviceId params) cs
  end.
Proof.
  induction cs as [|c cs IH]; simpl; [done|].
  assert (Hskip : ∀ entries,
    offers c serviceId params = None →
    complaint c serviceId params = entries →
    match (entries ++ (getServiceFrom cs serviceId params).1,
           (getServiceFrom cs serviceId params).2) with
    | (log, inl result) =>
        truthy (service result) = true
        ∧ ∃ before contribution after,
            c :: cs = before ++ contribution :: after
            ∧ Forall (λ c, offers c serviceId params = None) before
            ∧ offers contribution serviceId params = Some (service result)
            ∧ log = flat_map (λ c, complaint c serviceId params) before
    | (log, inr thrown) =>
        thrown = noServiceFound serviceId
        ∧ log = flat_map (λ c, complaint c serviceId params) (c :: cs)
    end).
  { intros entries Hnone Hentries.
    destruct (getServiceFrom cs serviceId params) as [log [result|thrown]]; simpl.
    - destruct IH as (Ht & before & contribution & after & -> & Hall & Hoff & ->).
      split; [done|]. exists (c :: before), contribution, after.
      split_and!; [done | by constructor | done | simpl; by rewrite Hentries].
    - destruct IH as [-> ->]. split; [done|]. by rewrite Hentries. }
  destruct (callContribution c serviceId params newServiceLifecycleImpl)
    as [[v|e]|] eqn:Hcall.
  - destruct (truthy v) eqn:Hv.
    + split; [done|]. exists [], c, cs.
      split_and!; [done | by constructor | | done].
      unfold offers. by rewrite Hcall, Hv.
    + assert (Ho : offers c serviceId params = None)
        by (unfold offers; by rewrite Hcall, Hv).
      assert (Hc : complaint c serviceId params = [])
        by (unfold complaint; by rewrite Hcall).
      specialize (Hskip [] Ho Hc). simpl in Hskip.
      by destruct (getServiceFrom cs serviceId params).
  - assert (Ho : offers c serviceId params = None)
      by (unfold offers; by rewrite Hcall).
    assert (Hc : complaint c serviceId params = [ConsoleErrorThrown e])
      by (unfold complaint; by rewrite Hcall).
    exact (Hskip _ Ho Hc).
  - assert (Ho : offers c serviceId params = None)
      by (unfold offers; by rewrite Hcall).
    assert (Hc : complaint c serviceId params
                 = [ConsoleError ("unexpected contribution type: " +:+ typeofContribution c)])
      by (unfold complaint; by rewrite Hcall).
    exact (Hskip _ Ho Hc).
Qed.

(** X10. Whenever [getService] returns, the service is truthy and is
    what the first offering contribution returned; the only thing it
    throws is 'no service found', when no contribution offers a service.
    What the contributions it passed over threw is never rethrown: it is
    written with [console.error], one entry for each contribution that
    threw or is of an unexpected type, in the order of the contributions,
    and nothing else is written. *)
Theorem getService_truthy_or_not_found (self : DefaultServiceProvider) serviceId params :
  match getService self serviceId params with
  | (log, inl result) =>
      truthy (service result) = true
      ∧ ∃ before contribution after,
          serviceContributions self = before ++ contribution :: after
          ∧ Forall (λ c, offers c serviceId params = None) before
          ∧ offers contribution serviceId params = Some (service result)
          ∧ log = flat_map (λ c, complaint c serviceId params) before
  | (log, inr thrown) =>
      thrown = noServiceFound serviceId
      ∧ log = flat_map (λ c, complaint c serviceId params) (serviceContributions self)
  end.
Proof. unfold getService. apply getServiceFrom_logs. Qed.

(** X11. Contributions listed first take precedence: over [cs1 ++ cs2]
    the lookup is the lookup over [cs1] when that finds a service, and
    otherwise the lookup over [cs2], after what [cs1] logged. *)
Theorem getServiceFrom_app cs1 cs2 serviceId params :
  getServiceFrom (cs1 ++ cs2) serviceId params =
    match getServiceFrom cs1 serviceId params with
    | (log1, inl result) => (log1, inl result)
    | (log1, inr _) =>
        (log1 ++ (getServiceFrom cs2 serviceId params).1,
         (getServiceFrom cs2 serviceId params).2)
    end.
Proof.
  induction cs1 as [|c cs1 IH]; simpl.
  - by destruct (getServiceFrom cs2 serviceId params).
  - destruct (callContribution c serviceId params newServiceLifecycleImpl) as [[v|e]|];
      simpl.
    + destruct (truthy v); [done|]. exact IH.
    + rewrite IH. unfold logged.
      by destruct (getServiceFrom cs1 serviceId params) as [log1 [result|thrown]].
    + rewrite IH. unfold logged.
      by destruct (getServiceFrom cs1 serviceId params) as [log1 [result|thrown]].
Qed.

End ServiceProviderFurther.

(** ** The JSON-RPC connection handler *)

Section JsonRpcHandlerFurther.

Import JsonRpcHandler.

Variable JSON_RPC_ROUTE : string → option string.
Context {Connection : Type}.

(** X13. For a path on the JSON-RPC route the handler never declines with
    [next()]: it accepts the connection and serves the service of the
    first contribution that offers one for the route's service id, or it
    throws 'no service found' (the test [if (!service)] never succeeds). *)
Theorem jsonRpcConnectionHandler_serves_or_throws
    (serviceProvider : ServiceProvider.DefaultServiceProvider)
    (path serviceId : string) (accept : Connection) :
  JSON_RPC_ROUTE path = Some serviceId →
  match jsonRpcConnectionHandler JSON_RPC_ROUTE serviceProvider (JsString path) accept with
  | Served service connection =>
      connection = accept
      ∧ ∃ before contribution after,
          ServiceProvider.serviceContributions serviceProvider
            = before ++ contribution :: after
          ∧ Forall (λ c, ServiceProvider.offers c serviceId (JsRecord ∅) = None) before
          ∧ ServiceProvider.offers contribution serviceId (JsRecord ∅) = Some service
  | Threw e =>
      e = ServiceProvider.noServiceFound serviceId
      ∧ Forall (λ c, ServiceProvider.offers c serviceId (JsRecord ∅) = None)
          (ServiceProvider.serviceContributions serviceProvider)
  | CalledNext => False
  end.
Proof.
  intros Hroute. unfold jsonRpcConnectionHandler. rewrite Hroute.
  pose proof (getServiceFrom_truthy (ServiceProvider.serviceContributions serviceProvider)
                serviceId (JsRecord ∅)) as Ht.
  pose proof (getServiceFrom_result (ServiceProvider.serviceContributions serviceProvider)
                serviceId (JsRecord ∅)) as Hr.
  unfold ServiceProvider.getService in *.
  destruct (ServiceProvider.getServiceFrom _ serviceId (JsRecord ∅)).2 as [result|thrown].
  - rewrite Ht. split; [done|]. exact Hr.
  - destruct Hr as [Hall ->]. by split.
Qed.

End JsonRpcHandlerFurther.

Lemma jsonRpcConnectionHandler_serves_or_throws_witness :
  JsonRpcHandler.jsonRpcConnectionHandler
    (λ path, if String.eqb path "/services/terminals" then Some "terminals" else None)
    {| ServiceProvider.serviceContributions := [zeroContribution; objectContribution 1] |}
    (JsString "/services/terminals") 9%nat
  = JsonRpcHandler.Served (JsObject 1) 9%nat.
Proof.
  pose proof (jsonRpcConnectionHandler_serves_or_throws
                (λ path, if String.eqb path "/services/terminals" then Some "terminals" else None)
                {| ServiceProvider.serviceContributions := [zeroContribution; objectContribution 1] |}
                "/services/terminals" "terminals" 9%nat eq_refl) as H.
  destruct (JsonRpcHandler.jsonRpcConnectionHandler _ _ _ _) eqn:E; [done| |];
    vm_compute in E; by inversion E.
Defined.

(** ** The RPC proxy and the proxy provider *)

Section RpcProxyFurther.

Import RpcProxy.

Variable isEventName : string → bool.

Implicit Types (h : RpcProxyHandler) (ops : list Op).

Lemma close_step (c0 : nat) h op :
  (closeCalls (rpcConnection h) ≤ S c0)%nat →
  (disposed h = false → closeCalls (rpcConnection h) = c0) →
  (closeCalls (rpcConnection (step isEventName h op)) ≤ S c0)%nat
  ∧ (disposed (step isEventName h op) = false →
     closeCalls (rpcConnection (step isEventName h op)) = c0).
Proof.
  intros Hle Hopen.
  destruct op as [property|m args| |eventName params]; simpl.
  - unfold get. destruct (disposed h) eqn:Hd; [simpl; by rewrite ?Hd|].
    destruct property as [name|sym]; [|simpl; by rewrite ?Hd].
    destruct (cache h !! inl name); [simpl; by rewrite ?Hd|].
    destruct (isEventName name); simpl; by rewrite ?Hd.
  - destruct m as [|e|id name]; simpl; [|done|done].
    destruct (disposed h) eqn:Hd; [simpl; by rewrite ?Hd|]. simpl.
    rewrite (Hopen eq_refl). split; [lia | done].
  - done.
  - unfold onNotification. by destruct (emitters h !! eventName).
Qed.

(** X14. Whatever is done with a proxy, [close()] is called on its
    connection at most once, and not at all while the proxy is not
    disposed: the 'dispose' function closes the connection the first time
    it is called and does nothing afterwards, nor after the connection
    closed by itself. *)
Theorem proxy_closes_connection_at_most_once (c : RpcConnection) ops :
  let h := run isEventName ops (newRpcProxyHandler c) in
  (closeCalls (rpcConnection h) ≤ S (closeCalls c))%nat
  ∧ (disposed h = false → closeCalls (rpcConnection h) = closeCalls c).
Proof.
  intros h. subst h. unfold run.
  assert (H0 : (closeCalls (rpcConnection (newRpcProxyHandler c)) ≤ S (closeCalls c))%nat
               ∧ (disposed (newRpcProxyHandler c) = false →
                  closeCalls (rpcConnection (newRpcProxyHandler c)) = closeCalls c))
    by (simpl; split; [lia | done]).
  revert H0. generalize (newRpcProxyHandler c).
  induction ops as [|op ops IH]; intros h [Hle Hopen]; simpl; [done|].
  by apply IH, close_step.
Qed.

(** *** Events *)

Lemma EmitterInv_new c : EmitterInv isEventName (newRpcProxyHandler c).
Proof.
  split; simpl; [done|].
  intros name m Hm Hne _. rewrite lookup_singleton_ne in Hm; [done | congruence].
Qed.

Lemma EmitterInv_step h op :
  EmitterInv isEventName h → EmitterInv isEventName (step isEventName h op).
Proof.
  intros HI. pose proof HI as [H1 H2].
  destruct op as [property|m args| |eventName params]; simpl.
  - unfold get. destruct (disposed h) eqn:Hd; [exact HI|].
    destruct property as [name|sym]; [|exact HI].
    destruct (cache h !! inl name) as [m|] eqn:Hc; [exact HI|].
    assert (Hne : name ≠ "dispose").
    { intros ->. rewrite (H1 eq_refl) in Hc. done. }
    destruct (isEventName name) eqn:He; split; simpl.
    + intros _. rewrite lookup_insert_ne; [auto | congruence].
    + intros p m Hm Hp Hev. destruct (decide (p = name)) as [->|Hpn].
      * rewrite lookup_insert_eq in Hm. injection Hm as <-.
        eexists. split; [done|]. by rewrite lookup_insert_eq.
      * rewrite lookup_insert_ne in Hm by congruence.
        destruct (H2 p m Hm Hp Hev) as (e & -> & He').
        eexists. split; [done|]. by rewrite lookup_insert_ne.
    + intros _. rewrite lookup_insert_ne; [auto | congruence].
    + intros p m Hm Hp Hev. destruct (decide (p = name)) as [->|Hpn]; [congruence|].
      rewrite lookup_insert_ne in Hm by congruence. eauto.
  - destruct m as [|e|id name]; simpl; [|exact HI|by split].
    destruct (disposed h) eqn:Hd; simpl; [exact HI|]. by split.
  - by split.
  - unfold onNotification. destruct (emitters h !! eventName); [|done]. by split.
Qed.

Lemma EmitterInv_run ops h :
  EmitterInv isEventName h → EmitterInv isEventName (run isEventName ops h).
Proof.
  revert h. induction ops as [|op ops IH]; intros h HI; simpl; [done|].
  by apply IH, EmitterInv_step.
Qed.

(** X15. On a proxy that is not disposed, reading a property whose name
    is an event name yields the event of one emitter, the same at every
    read; from then on a notification of that name fires this emitter with
    the first of the notification's params ([undefined] when there is
    none), and does nothing else. *)
Theorem proxy_event_receives_notifications
    (c : RpcConnection) ops (name : string) (params : list JsValue) :
  let h := run isEventName ops (newRpcProxyHandler c) in
  disposed h = false →
  isEventName name = true →
  name ≠ "dispose" →
  ∃ (h1 : RpcProxyHandler) (e : nat),
    get isEventName (inl name) h = (h1, inl (EventOf e))
    ∧ get isEventName (inl name) h1 = (h1, inl (EventOf e))
    ∧ onNotification name params h1
      = {| emitters := emitters h1; cache := cache h1; disposed := disposed h1;
           rpcConnection := rpcConnection h1; allocated := allocated h1;
           emitted := emitted h1 ++ [Fired e (default JsUndefined (head params))] |}.
Proof.
  intros h Hd Hev Hne.
  assert (HI : EmitterInv isEventName h) by apply EmitterInv_run, EmitterInv_new.
  assert (Hget : ∃ h1 e,
    get isEventName (inl name) h = (h1, inl (EventOf e))
    ∧ disposed h1 = false
    ∧ cache h1 !! inl name = Some (EventOf e)
    ∧ emitters h1 !! name = Some e).
  { unfold get. rewrite Hd.
    destruct (cache h !! inl name) as [m|] eqn:Hc.
    - destruct HI as [_ H2]. destruct (H2 name m Hc Hne Hev) as (e & -> & He).
      by exists h, e.
    - rewrite Hev. eexists _, _. split; [done|]. simpl.
      split_and!; [done | by rewrite lookup_insert_eq | by rewrite lookup_insert_eq]. }
  destruct Hget as (h1 & e & Hg & Hd1 & Hc1 & He1).
  exists h1, e. split_and!; [done | |].
  - unfold get. by rewrite Hd1, Hc1.
  - unfold onNotification. by rewrite He1.
Qed.

(** A notification for a name under which no emitter is registered (the
    property was never read) is dropped. *)
Lemma onNotification_unknown h eventName params :
  emitters h !! eventName = None → onNotification eventName params h = h.
Proof. intros He. unfold onNotification. by rewrite He. Qed.

(** X16. Once the handler was disposed (the connection reported closed),
    no emitter ever fires or is disposed again: whatever follows,
    notifications included, the emitters' record stays as [dispose] left
    it. *)
Theorem proxy_silent_after_close h ops :
  emitted (run isEventName ops (dispose h)) = emitted (dispose h)
  ∧ emitters (run isEventName ops (dispose h)) = ∅.
Proof.
  assert (H0 : disposed (dispose h) = true ∧ emitters (dispose h) = ∅) by done.
  revert H0. generalize (dispose h). clear h. unfold run.
  induction ops as [|op ops IH]; intros h [Hd He]; simpl; [done|].
  assert (Hstep : step isEventName h op = h
                  ∨ (disposed (step isEventName h op) = true
                     ∧ emitters (step isEventName h op) = ∅
                     ∧ emitted (step isEventName h op) = emitted h)).
  { destruct op as [property|m args| |eventName params]; simpl.
    - left. unfold get. by rewrite Hd.
    - destruct m as [|e|id name]; simpl; [left; by rewrite Hd | by left | by right].
    - right. unfold dispose. simpl. rewrite He, map_to_list_empty. simpl.
      by rewrite app_nil_r.
    - left. apply onNotification_unknown. by rewrite He. }
  destruct Hstep as [->|(Hd' & He' & Hem)]; [by apply IH|].
  rewrite <- Hem. by apply IH.
Qed.

(** *** The proxy provider *)

Implicit Types (self : DefaultRpcProxyProvider).

(** The cache of a provider: it maps a connection to a proxy made before,
    and different connections to different proxies. *)
Lemma getProxy_cache rpcConnection self :
  initialized self = true →
  (∀ c p, connectionToProxyCache self !! c = Some p → (p < proxiesCreated self)%nat) →
  (∀ c1 c2 p, connectionToProxyCache self !! c1 = Some p →
              connectionToProxyCache self !! c2 = Some p → c1 = c2) →
  ∃ proxy,
    (getProxy rpcConnection self).2 = inl proxy
    ∧ let self1 := (getProxy rpcConnection self).1 in
      initialized self1 = true
      ∧ connectionToProxyCache self1 !! rpcConnection = Some proxy
      ∧ (∀ c p, connectionToProxyCache self !! c = Some p →
                connectionToProxyCache self1 !! c = Some p)
      ∧ (∀ c p, connectionToProxyCache self1 !! c = Some p → (p < proxiesCreated self1)%nat)
      ∧ (∀ c1 c2 p, connectionToProxyCache self1 !! c1 = Some p →
                    connectionToProxyCache self1 !! c2 = Some p → c1 = c2).
Proof.
  intros Hinit Hlt Hinj. unfold getProxy. rewrite Hinit.
  destruct (connectionToProxyCache self !! rpcConnection) as [p|] eqn:Hc; simpl.
  - exists p. by split_and!.
  - exists (proxiesCreated self). split_and!; try done.
    + by rewrite lookup_insert_eq.
    + intros c p Hp. rewrite lookup_insert_ne; [done | congruence].
    + intros c p. rewrite lookup_insert. case_decide.
      * intros [= <-]. lia.
      * intros Hp. specialize (Hlt c p Hp). lia.
    + intros c1 c2 p. rewrite !lookup_insert. repeat case_decide; try congruence.
      * intros [= <-] Hp. specialize (Hlt c2 _ Hp). lia.
      * intros Hp [= <-]. specialize (Hlt c1 _ Hp). lia.
      * apply Hinj.
Qed.

Lemma getProxies_cache (rpcConnections : list nat) self :
  initialized self = true →
  (∀ c p, connectionToProxyCache self !! c = Some p → (p < proxiesCreated self)%nat) →
  (∀ c1 c2 p, connectionToProxyCache self !! c1 = Some p →
              connectionToProxyCache self !! c2 = Some p → c1 = c2) →
  let self' := (getProxies rpcConnections self).1 in
  (∀ c p, connectionToProxyCache self !! c = Some p →
          connectionToProxyCache self' !! c = Some p)
  ∧ (∀ c1 c2 p, connectionToProxyCache self' !! c1 = Some p →
                connectionToProxyCache self' !! c2 = Some p → c1 = c2)
  ∧ ∀ i c, rpcConnections !! i = Some c →
      ∃ p, (getProxies rpcConnections self).2 !! i = Some (inl p)
           ∧ connectionToProxyCache self' !! c = Some p.
Proof.
  revert self. induction rpcConnections as [|c0 rest IH]; intros self Hinit Hlt Hinj; simpl.
  - split_and!; [done | done | intros i c Hi; by rewrite lookup_nil in Hi].
  - destruct (getProxy_cache c0 self Hinit Hlt Hinj)
      as (p0 & Hres & Hinit1 & Hc0 & Hmono & Hlt1 & Hinj1).
    destruct (getProxy c0 self) as [self1 r] eqn:E1. simpl in *.
    specialize (IH self1 Hinit1 Hlt1 Hinj1).
    destruct (getProxies rest self1) as [self2 rs] eqn:E2. simpl in *.
    destruct IH as (Hmono2 & Hinj2 & Hall).
    split_and!; [by auto | done |].
    intros [|i] c Hi; simpl in *.
    + injection Hi as <-. exists p0. split; [by rewrite Hres | by auto].
    + by apply Hall.
Qed.

(** X17. An initialized proxy provider hands out one proxy per connection:
    over any sequence of [getProxy] calls every call returns a proxy, and
    two calls return the same proxy exactly when the connection provider
    answered them with the same connection. *)
Theorem getProxy_one_proxy_per_connection (rpcConnections : list nat) (i j c1 c2 : nat) :
  rpcConnections !! i = Some c1 →
  rpcConnections !! j = Some c2 →
  let proxies := (getProxies rpcConnections (initialize newDefaultRpcProxyProvider)).2 in
  ∃ p1 p2,
    proxies !! i = Some (inl p1) ∧ proxies !! j = Some (inl p2) ∧ (p1 = p2 ↔ c1 = c2).
Proof.
  intros Hi Hj proxies.
  destruct (getProxies_cache rpcConnections (initialize newDefaultRpcProxyProvider))
    as (_ & Hinj & Hall); [done | done | done |].
  destruct (Hall i c1 Hi) as (p1 & Hp1 & Hc1).
  destruct (Hall j c2 Hj) as (p2 & Hp2 & Hc2).
  exists p1, p2. split_and!; [done | done |]. split.
  - intros ->. by eapply Hinj.
  - intros ->. congruence.
Qed.

End RpcProxyFurther.

Lemma proxy_event_receives_notifications_witness :
  ∃ h1 e,
    RpcProxy.get onCapital (inl "onData") (RpcProxy.newRpcProxyHandler emptyConnection)
      = (h1, inl (RpcProxy.EventOf e))
    ∧ RpcProxy.emitted (RpcProxy.onNotification "onData" [JsNumber 5; JsNumber 6] h1)
      = [RpcProxy.Fired e (JsNumber 5)].
Proof.
  destruct (proxy_event_receives_notifications onCapital emptyConnection [] "onData"
              [JsNumber 5; JsNumber 6])
    as (h1 & e & Hg & _ & Hn); [done | done | done |].
  exists h1, e. split; [exact Hg|]. rewrite Hn. simpl.
  simpl in Hg. injection Hg as <- <-. done.
Defined.

Lemma getProxy_one_proxy_per_connection_witness :
  ∃ p1 p2,
    (RpcProxy.getProxies [4; 8; 4]%nat
       (RpcProxy.initialize RpcProxy.newDefaultRpcProxyProvider)).2 !! 0%nat = Some (inl p1)
    ∧ (RpcProxy.getProxies [4; 8; 4]%nat
         (RpcProxy.initialize RpcProxy.newDefaultRpcProxyProvider)).2 !! 2%nat = Some (inl p2)
    ∧ p1 = p2.
Proof.
  destruct (getProxy_one_proxy_per_connection [4; 8; 4]%nat 0 2 4 4 eq_refl eq_refl)
    as (p1 & p2 & H1 & H2 & Hiff).
  exists p1, p2. split_and!; [exact H1 | exact H2 | by apply Hiff].
Defined.

(** ** Collecting along the chain of parent containers *)

Section InversifyUtilsFurther.

Import InversifyUtils.

Context {B : Type}.
Variable collect : gmap nat nat → nat → list B.

(** X18. When the parent links from [container] reach a root, the loop of
    [collectRecursive] ends (within as many rounds as there are
    containers on the way); it visits each of them once, child before
    parent, calling [collect] on it with its own parent link cut and all
    other links in place; and it leaves every parent link as it found
    it. *)
Theorem collectRecursive_visits_ancestry
    (parents : gmap nat nat) (container : nat) (chain : list nat)
    (fuel : nat) (result : list B) :
  Ancestry parents container chain →
  (length chain ≤ fuel)%nat →
  collectRecursive collect fuel parents container result
  = Some (parents, result ++ flat_map (λ c, collect (delete c parents) c) chain).
Proof.
  intros Hchain. revert fuel result.
  induction Hchain as [c Hroot | c p chain Hp Hchain IH]; intros fuel result Hfuel.
  - destruct fuel as [|fuel]; simpl in *; [lia|].
    rewrite Hroot. simpl. rewrite (delete_id (delete c parents)) by apply lookup_delete_eq.
    rewrite lookup_delete_eq. by rewrite (delete_id parents), app_nil_r.
  - destruct fuel as [|fuel]; simpl in *; [lia|].
    rewrite Hp. simpl. rewrite insert_delete_eq, (insert_id parents c p Hp), Hp.
    rewrite IH by lia. by rewrite <- app_assoc.
Qed.

(** X19. Conversely the loop of [collectRecursive] ends only when the
    parent links from [container] reach a root: with a cycle of parents no
    number of rounds suffices. *)
Theorem collectRecursive_ends_only_at_root
    (parents : gmap nat nat) (container : nat) (fuel : nat) (result : list B)
    (out : gmap nat nat * list B) :
  collectRecursive collect fuel parents container result = Some out →
  ∃ chain, Ancestry parents container chain ∧ (length chain ≤ fuel)%nat.
Proof.
  revert container result. induction fuel as [|fuel IH]; intros c result; simpl; [done|].
  destruct (parents !! c) as [p|] eqn:Hp; simpl.
  - rewrite insert_delete_eq, (insert_id parents c p Hp), Hp. intros Hrec.
    destruct (IH _ _ Hrec) as (chain & Hchain & Hlen).
    exists (c :: chain). split; [by eapply ancestry_parent | simpl; lia].
  - intros _. exists [c]. split; [by apply ancestry_root | simpl; lia].
Qed.

End InversifyUtilsFurther.

Lemma collectRecursive_visits_ancestry_witness :
  InversifyUtils.collectRecursive (λ parents c, [(c, parents !! c)]) 5
    {[ 1%nat := 2%nat; 2%nat := 3%nat ]} 1%nat []
  = Some ({[ 1%nat := 2%nat; 2%nat := 3%nat ]},
          [(1%nat, None); (2%nat, None); (3%nat, None)]).
Proof.
  etrans.
  - apply (collectRecursive_visits_ancestry (λ parents c, [(c, parents !! c)])
             {[ 1%nat := 2%nat; 2%nat := 3%nat ]} 1%nat [1; 2; 3]%nat 5 []).
    + apply InversifyUtils.ancestry_parent with (parent := 2%nat); [done|].
      apply InversifyUtils.ancestry_parent with (parent := 3%nat); [done|].
      by apply InversifyUtils.ancestry_root.
    + simpl. lia.
  - by vm_compute.
Defined.

(** ** The agent service *)

Section AgentServiceFurther.

Import AgentService.

Implicit Types (self : AgentServiceImpl) (ops : list Op) (agentId : string).

Lemma isEnabled_step self op agentId :
  isEnabled agentId (step self op) =
    match op with
    | OpEnable a => if decide (a = agentId) then true else isEnabled agentId self
    | OpDisable a => if decide (a = agentId) then false else isEnabled agentId self
    | OpRegister _ => isEnabled agentId self
    end.
Proof.
  destruct op as [agent|a|a]; simpl; [done| |]; unfold isEnabled; simpl.
  - case_decide as Ha.
    + subst a. rewrite bool_decide_eq_false_2; [done|].
      rewrite elem_of_difference, elem_of_singleton. tauto.
    + f_equal. apply bool_decide_ext.
      rewrite elem_of_difference, elem_of_singleton. split; [tauto|].
      intros Hin. split; [done | congruence].
  - case_decide as Ha.
    + subst a. rewrite bool_decide_eq_true_2; [done|].
      rewrite elem_of_union, elem_of_singleton. tauto.
    + f_equal. apply bool_decide_ext.
      rewrite elem_of_union, elem_of_singleton. split; [|tauto].
      intros [Heq|Hin]; [congruence | done].
Qed.

Lemma isEnabled_run self ops agentId :
  isEnabled agentId (run ops self) = lastToggle agentId (isEnabled agentId self) ops.
Proof.
  revert self. unfold run.
  induction ops as [|op ops IH]; intros self; simpl; [done|].
  rewrite IH, isEnabled_step. by destruct op.
Qed.

Lemma agents_step self op :
  agentsProvider (step self op) = agentsProvider self
  ∧ _agents (step self op) =
      _agents self ++ match op with OpRegister agent => [agent] | _ => [] end.
Proof. destruct op; simpl; by rewrite ?app_nil_r. Qed.

Lemma agents_run self ops : agents (run ops self) = agents self ++ registered ops.
Proof.
  revert self. unfold run, agents, registered.
  induction ops as [|op ops IH]; intros self; simpl; [by rewrite app_nil_r|].
  rewrite IH. destruct (agents_step self op) as [-> ->].
  destruct op; simpl; by rewrite <- ?app_assoc, ?app_nil_r.
Qed.

(** X20. After any sequence of [registerAgent], [enableAgent] and
    [disableAgent] calls, an agent id is enabled exactly when the last
    [enableAgent] or [disableAgent] call for that id was an enable, or,
    without such a call, when it was enabled to begin with; calls for
    other ids and registrations do not matter. *)
Theorem isEnabled_after_calls self ops agentId :
  isEnabled agentId (run ops self) = lastToggle agentId (isEnabled agentId self) ops.
Proof. apply isEnabled_run. Qed.

(** X21. [getAllAgents()] lists the contributed agents first and then the
    registered ones in the order of their registration, once per
    [registerAgent] call; enabling and disabling neither add nor remove
    anything. *)
Theorem getAllAgents_after_calls self ops :
  getAllAgents (run ops self) = getAllAgents self ++ registered ops.
Proof. apply agents_run. Qed.

(** X22. [getAgents()] lists, in the order of [getAllAgents()], exactly
    the agents whose id is enabled; on a new service this is decided by
    the last enable or disable call for the id, also when that call came
    before the agent was registered. *)
Theorem getAgents_after_calls (contributions : list Agent) ops :
  getAgents (run ops (newAgentServiceImpl contributions)) =
    filter (λ agent, lastToggle (id agent) true ops = true)
           (contributions ++ registered ops).
Proof.
  unfold getAgents. rewrite agents_run. unfold agents. simpl.
  rewrite app_nil_r. apply list_filter_iff. intros agent. by rewrite isEnabled_run.
Qed.

End AgentServiceFurther.

(** ** The backend-proxying route, off the route *)

Section BackendProxyingFurther.

Import BackendProxying.

Variable Route : string → string → option (gmap string string).
Context {Connection : Type}.

(** X23. Connections whose path is not on the backend-proxying route are
    all passed on with [next()], without an error, and leave the provider
    as it was, whatever its state: they neither take nor use up the
    single-use route. *)
Theorem backend_proxying_ignores_other_routes
    (self : @FrontendServiceConnectionProvider Connection)
    (incoming : list (JsValue * Connection)) :
  Forall (λ x, onRoute Route x.1 = false) incoming →
  serve Route self incoming = (self, (λ _, CalledNext None) <$> incoming).
Proof.
  intros Hoff. induction Hoff as [|[p c] rest Hp _ IH]; simpl; [done|].
  simpl in Hp. rewrite connectionHandler_off_route by done. by rewrite IH.
Qed.

End BackendProxyingFurther.

Lemma backend_proxying_ignores_other_routes_witness :
  BackendProxying.serve SegmentRoute.Route
    BackendProxying.newFrontendServiceConnectionProvider
    [(JsString "/services/x", 1%nat); (JsNumber 3, 2%nat)]
  = (BackendProxying.newFrontendServiceConnectionProvider,
     [BackendProxying.CalledNext None; BackendProxying.CalledNext None]).
Proof.
  etrans.
  - apply backend_proxying_ignores_other_routes.
    constructor; [by vm_compute|]. constructor; [by vm_compute | constructor].
  - done.
Defined.

Lemma rc_clone_succeeds_while_alive_witness :
  (Rc.clone 0 (Rc.run [Rc.OpClone 0; Rc.OpDispose 0] (Rc.New 7%nat None))).2 = None.
Proof.
  pose proof (rc_clone_succeeds_while_alive 7%nat None [Rc.OpClone 0; Rc.OpDispose 0] 0%nat) as H.
  cbv zeta in H. destruct H as (H & _); [by vm_compute; eexists | by vm_compute | exact H].
Defined.

(** ** Nested route handlers *)

Section RouteHandlerFurther.

Import RouteHandler.

Variable Route : string → string → option (gmap string string).
Context {Accept Result : Type}.

(** X24. A route handler wrapped in another one calls the handler only
    when both patterns match the path, and then with the route of the
    inner pattern (the outer [route] is overwritten); when the outer
    pattern matches and the inner one does not, it declines with
    [next()]. *)
Theorem createRouteHandler_nested
    (outer inner : string)
    (handler : gmap string JsValue → Accept → (option Thrown → Result) → Result)
    (params : gmap string JsValue) (path : string) (segments : gmap string string)
    (accept : Accept) (next : option Thrown → Result) :
  params !! "path" = Some (JsString path) →
  Route outer path = Some segments →
  createRouteHandler Route outer (createRouteHandler Route inner handler) params accept next
  = match Route inner path with
    | Some segments' => handler (<["route" := routeRecord inner segments']> params) accept next
    | None => next None
    end.
Proof.
  intros Hp Ho. unfold createRouteHandler, paramsContainsPath.
  rewrite Hp, Ho. rewrite lookup_insert_ne by done. rewrite Hp.
  destruct (Route inner path); [|done]. by rewrite insert_insert_eq.
Qed.

End RouteHandlerFurther.

Lemma createRouteHandler_nested_witness :
  RouteHandler.createRouteHandler SegmentRoute.Route "/:area/:item"
    (RouteHandler.createRouteHandler SegmentRoute.Route "/services/:serviceId"
       (λ params accept _, Handled (RouteHandler.routeParam params "serviceId") accept))
    {[ "path" := JsString "/services/terminal" ]} 7%nat Declined
  = Handled (Some (JsString "terminal")) 7%nat.
Proof.
  etrans.
  - apply (createRouteHandler_nested SegmentRoute.Route "/:area/:item" "/services/:serviceId"
             _ _ "/services/terminal" {[ "area" := "services"; "item" := "terminal" ]});
      by vm_compute.
  - by vm_compute.
Defined.

Lemma collectRecursive_ends_only_at_root_witness :
  ∃ chain,
    InversifyUtils.Ancestry ({[ 1%nat := 2%nat; 2%nat := 3%nat ]} : gmap nat nat) 1%nat chain
    ∧ (length chain ≤ 5)%nat.
Proof.
  apply (collectRecursive_ends_only_at_root (λ parents c, [(c, parents !! c)])
           {[ 1%nat := 2%nat; 2%nat := 3%nat ]} 1%nat 5 []
           ({[ 1%nat := 2%nat; 2%nat := 3%nat ]},
            [(1%nat, None); (2%nat, None); (3%nat, None)])).
  by vm_compute.
Defined.
